(** * Crawl and Scrape node: a shallow embedding of
      [src/nodes/CrawleeNode/CrawleeNode.node.ts]

    The node's [execute] method walks over the input items, builds a
    [CheerioCrawler] per item, runs it on the cache-busted seed URL and
    pushes a success record, or routes the error through the catch and
    finally blocks.  The host ([IExecuteFunctions]), the crawler
    ([CheerioCrawler.run] and [teardown]), the clock ([Date.now]) and the
    platform's [URL] constructor are not part of the file: they appear
    below as fields of a [Host] record and as a section variable, so that
    every theorem holds for whatever they do. *)

From Stdlib Require Import String Ascii DecimalString DecimalPos DecimalZ.
From Stdlib Require Import List Sorted ZArith NArith Lia Bool Arith.
Import ListNotations.

Set Warnings "-register-all".
Local Open Scope list_scope.

(* ================================================================== *)
(** ** JavaScript strings *)

(** A JavaScript string is a sequence of UTF-16 code units; [length],
    [substring] and [+] count and cut code units. *)
Definition code_unit := N.
Definition jsstring := list code_unit.

(** String literals of the source. *)
Definition js (s : string) : jsstring :=
  map N_of_ascii (list_ascii_of_string s).
Arguments js s%_string.

Definition code_unit_eqb : code_unit -> code_unit -> bool := N.eqb.

Fixpoint jsstring_eqb (a b : jsstring) : bool :=
  match a, b with
  | [], [] => true
  | x :: a', y :: b' => code_unit_eqb x y && jsstring_eqb a' b'
  | _, _ => false
  end.

Definition jsstring_eq_dec : forall a b : jsstring, {a = b} + {a <> b} :=
  list_eq_dec N.eq_dec.

(** [s.includes(c)] for a one-unit needle. *)
Definition includes_unit (s : jsstring) (c : code_unit) : bool :=
  existsb (code_unit_eqb c) s.

(** [s.substring(0, n)] for [0 <= n]. *)
Definition substring0 (n : nat) (s : jsstring) : jsstring := firstn n s.

(** ECMAScript WhiteSpace and LineTerminator code points, the ones
    [String.prototype.trim] strips. *)
Definition is_js_whitespace (c : code_unit) : bool :=
  ((9 <=? c) && (c <=? 13) || (c =? 32) || (c =? 160) || (c =? 5760)
   || (8192 <=? c) && (c <=? 8202)
   || (c =? 8232) || (c =? 8233) || (c =? 8239) || (c =? 8287)
   || (c =? 12288) || (c =? 65279))%N.

Fixpoint trimStart (s : jsstring) : jsstring :=
  match s with
  | [] => []
  | c :: s' => if is_js_whitespace c then trimStart s' else s
  end.

Fixpoint trimEnd (s : jsstring) : jsstring :=
  match s with
  | [] => []
  | c :: s' =>
      match trimEnd s' with
      | [] => if is_js_whitespace c then [] else [c]
      | kept => c :: kept
      end
  end.

Definition trim (s : jsstring) : jsstring := trimEnd (trimStart s).

(** The decimal rendering of an integer, as a template literal prints an
    integral Number of that size. *)
Definition Z_to_jsstring (z : Z) : jsstring :=
  js (NilZero.string_of_int (Z.to_int z)).

(* ================================================================== *)
(** ** Module-level helper: [appendTimestampToUrl] *)

Definition QUESTION_MARK : code_unit := 63%N.

(** [appendTimestampToUrl(url)], with the value [Date.now()] returned
    passed in as [now]. *)
Definition appendTimestampToUrl (url : jsstring) (now : Z) : jsstring :=
  let separator := if includes_unit url QUESTION_MARK then js "&" else js "?" in
  url ++ separator ++ js "_=" ++ Z_to_jsstring now.

(* ================================================================== *)
(** ** Truncation with a marker *)

Definition TEXT_CAP : nat := 50 * 1000.
Definition HTML_CAP : nat := 100 * 1000.
Definition MARKER : jsstring := js "...".

(** [s.length > cap ? s.substring(0, cap) + '...' : s] *)
Definition truncateWithMarker (cap : nat) (s : jsstring) : jsstring :=
  if cap <? length s then substring0 cap s ++ MARKER else s.

(* ================================================================== *)
(** ** [[...new Set(xs)]]: insertion-ordered deduplication *)

Definition set_has (seen : list jsstring) (x : jsstring) : bool :=
  existsb (jsstring_eqb x) seen.

(** [new Set(xs)] adds the elements from left to right and keeps the
    first occurrence of each; spreading it lists them in insertion
    order. *)
Fixpoint set_add_all (seen : list jsstring) (xs : list jsstring) : list jsstring :=
  match xs with
  | [] => seen
  | x :: xs' =>
      if set_has seen x then set_add_all seen xs'
      else set_add_all (seen ++ [x]) xs'
  end.

Definition spread_new_Set (xs : list jsstring) : list jsstring :=
  set_add_all [] xs.

(* ================================================================== *)
(** ** Data of the node *)

(** JSON values, as the [json] member of an item holds them. *)
Inductive JsonValue :=
| JNull
| JBool (b : bool)
| JNumber (z : Z)
| JString (s : jsstring)
| JArray (elements : list JsonValue)
| JObject (members : list (jsstring * JsonValue)).

Definition IDataObject := list (jsstring * JsonValue).

(** [obj[key]] on an object literal. *)
Fixpoint member (key : jsstring) (obj : IDataObject) : option JsonValue :=
  match obj with
  | [] => None
  | (k, v) :: rest => if jsstring_eqb k key then Some v else member key rest
  end.

(** [obj.a.b] *)
Definition member2 (a b : jsstring) (obj : IDataObject) : option JsonValue :=
  match member a obj with
  | Some (JObject inner) => member b inner
  | _ => None
  end.

Record ErrorContext := { itemIndex : option nat }.

(** A thrown value: its [name], its [message] and its [context], which
    only the host's error classes carry. *)
Record JsError := {
  name : jsstring;
  message : jsstring;
  context : option ErrorContext
}.

(** [new NodeOperationError(this.getNode(), message, { itemIndex })],
    built from a message string. *)
Definition NodeOperationError (msg : jsstring) (i : nat) : JsError :=
  {| name := js "NodeOperationError";
     message := msg;
     context := Some {| itemIndex := Some i |} |}.

(** What the engine throws for [undefined[0]] and [undefined.json]. *)
Definition TypeError_undefined : JsError :=
  {| name := js "TypeError";
     message := js "Cannot read properties of undefined";
     context := None |}.

Record INodeExecutionData := {
  json : IDataObject;
  error : option JsError;
  pairedItem : option nat
}.

(** An item that carries [json] only. *)
Definition json_item (j : IDataObject) : INodeExecutionData :=
  {| json := j; error := None; pairedItem := None |}.

Inductive Completion (A : Type) :=
| Normal (a : A)
| Throw (e : JsError).
Arguments Normal {A} a.
Arguments Throw {A} e.

(** The options [execute] passes to [new CheerioCrawler]; the
    [requestHandler] member is modelled by the handler functions
    below. *)
Record CrawlerOptions := {
  maxRequestsPerCrawl : Z;
  requestHandlerTimeoutSecs : Z;
  useSessionPool : bool;
  maxConcurrency : Z
}.

(** What a [requestHandler] reads of its crawling context:
    [request.url], the [href] attribute of each element of
    [$('a[href]')] in document order, [$('body').text()], and [body]. *)
Record CrawlingContext := {
  request_url : jsstring;
  anchor_hrefs : list jsstring;
  body_text : jsstring;
  body : jsstring
}.

(** What one call of [crawler.run] does, seen from [execute]: the
    contexts on which it invokes the [requestHandler], in order, and
    whether the promise it returns is rejected. *)
Record RunReport := {
  handled : list CrawlingContext;
  rejected : option JsError
}.

(** The collaborators of [execute].  Everything is indexed by the item
    index at which [execute] calls it. *)
Record Host := {
  (** [this.getInputData()] *)
  inputItems : list INodeExecutionData;
  (** [this.getInputData(k)] for [k >= 1]: a list, [undefined] (here
      [None]), or an error of the host's own *)
  otherInputs : nat -> Completion (option (list INodeExecutionData));
  (** [this.getNodeParameter('url', itemIndex, '')] *)
  getNodeParameter_url : nat -> Completion jsstring;
  (** [this.getNodeParameter('operation', itemIndex, '')] *)
  getNodeParameter_operation : nat -> Completion jsstring;
  (** [this.getNodeParameter('maxDepth', itemIndex, 1)], integral *)
  getNodeParameter_maxDepth : nat -> Completion Z;
  (** [this.continueOnFail()] *)
  continueOnFail : bool;
  (** [Date.now()] while the item is processed *)
  Date_now : nat -> Z;
  (** [crawler.run(requests)] of the crawler built for the item *)
  crawler_run : nat -> CrawlerOptions -> list jsstring -> RunReport;
  (** [crawler.teardown()] of the crawler built for the item *)
  crawler_teardown : nat -> Completion unit;
  (** the message that [new NodeOperationError(this.getNode(), error,
      { itemIndex })] gives to the [error] it wraps at that item; the
      host's class may rewrite it *)
  wrapped_message : nat -> JsError -> jsstring
}.

(** Calls that leave [execute], in the order they are made. *)
Inductive Event :=
| EvRun (item : nat) (options : CrawlerOptions) (requests : list jsstring)
| EvTeardown (item : nat).

(** The mutable objects of one [execute] call: the [items] array, which
    the loop bound reads on every round, the [returnData] array, and the
    trace of outside calls. *)
Record Heap := {
  items : list INodeExecutionData;
  returnData : list INodeExecutionData;
  trace : list Event
}.

Definition push_items (x : INodeExecutionData) (st : Heap) : Heap :=
  {| items := items st ++ [x]; returnData := returnData st; trace := trace st |}.

Definition push_returnData (x : INodeExecutionData) (st : Heap) : Heap :=
  {| items := items st; returnData := returnData st ++ [x]; trace := trace st |}.

Definition emit (e : Event) (st : Heap) : Heap :=
  {| items := items st; returnData := returnData st; trace := trace st ++ [e] |}.

(** [this.getInputData(inputIndex)]: index 0 is the very array [items]
    is bound to. *)
Definition getInputData (h : Host) (st : Heap) (inputIndex : nat)
  : Completion (option (list INodeExecutionData)) :=
  match inputIndex with
  | O => Normal (Some (items st))
  | S _ => otherInputs h inputIndex
  end.

(* ================================================================== *)
(** ** The node *)

Section CrawleeNode.

(** [new URL(href, base).href]; [None] when the constructor throws. *)
Variable URL_href : jsstring -> jsstring -> option jsstring.

(** *** Crawler options *)

(** [new CheerioCrawler({...})] of the [extractLinks] branch. *)
Definition linksCrawlerOptions (maxDepth : Z) : CrawlerOptions :=
  {| maxRequestsPerCrawl := Z.min 100 (maxDepth * 50);
     requestHandlerTimeoutSecs := 30;
     useSessionPool := false;
     maxConcurrency := 5 |}.

(** [new CheerioCrawler({...})] of the [extractText] and [extractHtml]
    branches, which pass the same numbers. *)
Definition singlePageCrawlerOptions : CrawlerOptions :=
  {| maxRequestsPerCrawl := 1;
     requestHandlerTimeoutSecs := 30;
     useSessionPool := false;
     maxConcurrency := 1 |}.

(** *** Request handlers *)

(** The body of [$('a[href]').each(...)]: one step per anchor, pushing
    onto [links] unless the attribute is empty or [new URL] throws. *)
Definition push_link (request_url : jsstring) (links : list jsstring)
  (href : jsstring) : list jsstring :=
  match href with
  | [] => links
  | _ :: _ =>
      match URL_href href request_url with
      | Some resolved => links ++ [resolved]
      | None => links
      end
  end.

Definition collect_links (ctx : CrawlingContext) : list jsstring :=
  fold_left (push_link (request_url ctx)) (anchor_hrefs ctx) [].

(** An entry of [crawledData]: [{ url: originalUrl, links }]. *)
Record CrawledEntry := {
  entry_url : jsstring;
  entry_links : list jsstring
}.

(** [requestHandler] of the [extractLinks] branch: the entry it pushes
    onto [crawledData]. *)
Definition linksRequestHandler (originalUrl : jsstring) (ctx : CrawlingContext)
  : CrawledEntry :=
  {| entry_url := originalUrl; entry_links := collect_links ctx |}.

Definition success_json (msg : jsstring) (data : IDataObject) : IDataObject :=
  [ (js "status", JString (js "success"));
    (js "message", JString msg);
    (js "data", JObject data) ].

Definition links_record (originalUrl : jsstring) (uniqueLinks : list jsstring)
  : INodeExecutionData :=
  json_item (success_json (js "Crawling finished")
    [ (js "url", JString originalUrl);
      (js "links", JArray (map JString uniqueLinks)) ]).

Definition extracted_text (ctx : CrawlingContext) : jsstring :=
  let text := trim (body_text ctx) in
  truncateWithMarker TEXT_CAP text.

(** [requestHandler] of the [extractText] branch: the record it pushes
    onto [returnData]. *)
Definition textRequestHandler (originalUrl : jsstring) (ctx : CrawlingContext)
  : INodeExecutionData :=
  let truncatedText := extracted_text ctx in
  json_item (success_json (js "Text extraction finished")
    [ (js "url", JString originalUrl);
      (js "text", JString truncatedText) ]).

Definition extracted_html (ctx : CrawlingContext) : jsstring :=
  truncateWithMarker HTML_CAP (body ctx).

(** [requestHandler] of the [extractHtml] branch. *)
Definition htmlRequestHandler (originalUrl : jsstring) (ctx : CrawlingContext)
  : INodeExecutionData :=
  let truncatedHtml := extracted_html ctx in
  json_item (success_json (js "HTML extraction finished")
    [ (js "url", JString originalUrl);
      (js "html", JString truncatedHtml) ]).

(** The handler invocations of one run, each pushing its record onto
    [returnData]. *)
Definition run_pushing (handler : CrawlingContext -> INodeExecutionData)
  (pages : list CrawlingContext) (st : Heap) : Heap :=
  fold_left (fun s ctx => push_returnData (handler ctx) s) pages st.

(** *** The [try] block of one round *)

(** The value of the [crawler] variable when the block is left: the
    options of the live crawler, or [None] for [null]. *)
Definition CrawlerVar := option CrawlerOptions.

Definition extractLinks_branch (h : Host) (i : nat) (url : jsstring) (st : Heap)
  : Heap * CrawlerVar * Completion unit :=
  let originalUrl := url in
  match getNodeParameter_maxDepth h i with
  | Throw e => (st, None, Throw e)
  | Normal maxDepth =>
      let crawler := linksCrawlerOptions maxDepth in
      let requests := [appendTimestampToUrl url (Date_now h i)] in
      let report := crawler_run h i crawler requests in
      let st1 := emit (EvRun i crawler requests) st in
      let crawledData := map (linksRequestHandler originalUrl) (handled report) in
      match rejected report with
      | Some e => (st1, Some crawler, Throw e)
      | None =>
          let uniqueLinks := spread_new_Set (flat_map entry_links crawledData) in
          (push_returnData (links_record originalUrl uniqueLinks) st1,
           None, Normal tt)
      end
  end.

Definition singlePage_branch (handler : jsstring -> CrawlingContext -> INodeExecutionData)
  (h : Host) (i : nat) (url : jsstring) (st : Heap)
  : Heap * CrawlerVar * Completion unit :=
  let originalUrl := url in
  let crawler := singlePageCrawlerOptions in
  let requests := [appendTimestampToUrl url (Date_now h i)] in
  let report := crawler_run h i crawler requests in
  let st1 := emit (EvRun i crawler requests) st in
  let st2 := run_pushing (handler originalUrl) (handled report) st1 in
  match rejected report with
  | Some e => (st2, Some crawler, Throw e)
  | None => (st2, None, Normal tt)
  end.

Definition tryBlock (h : Host) (i : nat) (st : Heap)
  : Heap * CrawlerVar * Completion unit :=
  match getNodeParameter_url h i with
  | Throw e => (st, None, Throw e)
  | Normal url =>
      match getNodeParameter_operation h i with
      | Throw e => (st, None, Throw e)
      | Normal operation =>
          match url with
          | [] => (st, None, Throw (NodeOperationError (js "URL is required") i))
          | _ :: _ =>
              if jsstring_eqb operation (js "extractLinks") then
                extractLinks_branch h i url st
              else if jsstring_eqb operation (js "extractText") then
                singlePage_branch textRequestHandler h i url st
              else if jsstring_eqb operation (js "extractHtml") then
                singlePage_branch htmlRequestHandler h i url st
              else (st, None, Normal tt)
          end
      end
  end.

(** *** The [catch] block *)

(** With continue-on-failure on, [this.getInputData(itemIndex)] may
    throw, and reading [[0].json] of [undefined] or of an empty array
    throws the [TypeError]; with it off, an error that has a [context]
    is thrown again with the item index set, any other is wrapped in a
    [NodeOperationError], whose message the host's class decides. *)
Definition catchBlock (h : Host) (i : nat) (err : JsError) (st : Heap)
  : Heap * Completion unit :=
  if continueOnFail h then
    match getInputData h st i with
    | Throw host_error => (st, Throw host_error)
    | Normal (Some (first :: _)) =>
        (push_items {| json := json first; error := Some err; pairedItem := Some i |} st,
         Normal tt)
    | Normal (Some []) | Normal None => (st, Throw TypeError_undefined)
    end
  else
    match context err with
    | Some _ =>
        (st, Throw {| name := name err; message := message err;
                      context := Some {| itemIndex := Some i |} |})
    | None => (st, Throw (NodeOperationError (wrapped_message h i err) i))
    end.

(** *** The [finally] block *)

Definition finallyBlock (h : Host) (i : nat) (crawler : CrawlerVar) (st : Heap)
  : Heap :=
  match crawler with
  | Some _ =>
      let st1 := emit (EvTeardown i) st in
      match crawler_teardown h i with
      | Normal _ => st1
      | Throw _ => st1
      end
  | None => st
  end.

(** *** One round of the loop: [try], [catch], [finally] *)

Definition iteration (h : Host) (i : nat) (st : Heap) : Heap * Completion unit :=
  let '(st1, crawler, c) := tryBlock h i st in
  let '(st2, c2) :=
    match c with
    | Normal _ => (st1, Normal tt)
    | Throw e => catchBlock h i e st1
    end in
  (finallyBlock h i crawler st2, c2).

(** *** [execute] *)

Inductive Outcome :=
| Returned (output : list (list INodeExecutionData)) (calls : list Event)
| Raised (e : JsError) (calls : list Event)
| OutOfFuel.

(** The [for] loop; its bound is read from the live [items] array on
    every round.  [fuel] bounds the number of rounds. *)
Fixpoint item_loop (fuel : nat) (h : Host) (itemIndex : nat) (st : Heap) : Outcome :=
  if itemIndex <? length (items st) then
    match fuel with
    | O => OutOfFuel
    | S fuel' =>
        match iteration h itemIndex st with
        | (st', Normal _) => item_loop fuel' h (S itemIndex) st'
        | (st', Throw e) => Raised e (trace st')
        end
    end
  else Returned [returnData st] (trace st).

Definition initial_heap (h : Host) : Heap :=
  {| items := inputItems h; returnData := []; trace := [] |}.

Definition execute (fuel : nat) (h : Host) : Outcome :=
  item_loop fuel h 0 (initial_heap h).

End CrawleeNode.

(* ================================================================== *)
(** ** The platform's [URL] constructor, on plain http(s) references

    [new URL(href, base)] is the URL Standard's basic URL parser run on
    [base] and then on [href] against the parsed base, and [.href] is
    the standard's serializer.  The functions below follow the parser
    state by state on the references this development evaluates: ASCII
    input that needs no percent-encoding, a special scheme other than
    [file], no credentials, a host that is a plain DNS name, and no
    empty query inherited from the base.  On any other input the answer
    is [Unmodelled], never a guess. *)

Module URLStandard.

Inductive ParseResult (A : Type) :=
| Parsed (a : A)
| Failure
| Unmodelled.
Arguments Parsed {A} a.
Arguments Failure {A}.
Arguments Unmodelled {A}.

Local Open Scope N_scope.

Definition SOLIDUS : code_unit := 47.
Definition COLON : code_unit := 58.
Definition NUMBER_SIGN : code_unit := 35.
Definition FULL_STOP : code_unit := 46.
Definition HYPHEN_MINUS : code_unit := 45.

Definition is_ascii_digit (c : code_unit) : bool := (48 <=? c) && (c <=? 57).
Definition is_ascii_upper_alpha (c : code_unit) : bool := (65 <=? c) && (c <=? 90).
Definition is_ascii_lower_alpha (c : code_unit) : bool := (97 <=? c) && (c <=? 122).
Definition is_ascii_alpha (c : code_unit) : bool :=
  is_ascii_upper_alpha c || is_ascii_lower_alpha c.
Definition is_ascii_alphanumeric (c : code_unit) : bool :=
  is_ascii_digit c || is_ascii_alpha c.

Definition ascii_lowercase_unit (c : code_unit) : code_unit :=
  if is_ascii_upper_alpha c then c + 32 else c.
Definition ascii_lowercase (s : jsstring) : jsstring := map ascii_lowercase_unit s.

(** A URL record; username and password stay empty and the host is
    never null on the references covered. *)
Record URLRecord := {
  scheme : jsstring;
  host : jsstring;
  port : option N;
  path : list jsstring;
  query : option jsstring;
  fragment : option jsstring
}.

(** Special schemes other than [file], with their default ports. *)
Definition default_port (s : jsstring) : option N :=
  if jsstring_eqb s (js "http") then Some 80
  else if jsstring_eqb s (js "https") then Some 443
  else if jsstring_eqb s (js "ws") then Some 80
  else if jsstring_eqb s (js "wss") then Some 443
  else if jsstring_eqb s (js "ftp") then Some 21
  else None.

(** *** Input preparation *)

Definition is_c0_control_or_space (c : code_unit) : bool := c <=? 32.
Definition is_ascii_tab_or_newline (c : code_unit) : bool :=
  (c =? 9) || (c =? 10) || (c =? 13).

Fixpoint strip_leading (s : jsstring) : jsstring :=
  match s with
  | [] => []
  | c :: s' => if is_c0_control_or_space c then strip_leading s' else s
  end.

Definition prepare (input : jsstring) : jsstring :=
  let stripped := rev (strip_leading (rev (strip_leading input))) in
  filter (fun c => negb (is_ascii_tab_or_newline c)) stripped.

(** The code units the model reads: URL units that no percent-encode
    set touches, the delimiters, and a literal [%]. *)
Definition covered_unit (c : code_unit) : bool :=
  is_ascii_alphanumeric c || includes_unit (js "!$%&()*+,-./:;=?#_~") c.

(** *** Scheme start state and scheme state *)

Fixpoint scheme_state (input buffer : jsstring) : option (jsstring * jsstring) :=
  match input with
  | [] => None
  | c :: rest =>
      if is_ascii_alphanumeric c || (c =? 43) || (c =? HYPHEN_MINUS) || (c =? FULL_STOP)
      then scheme_state rest (buffer ++ [ascii_lowercase_unit c])
      else if c =? COLON then Some (buffer, rest)
      else None
  end.

(** [Some (scheme, remaining)] when the input starts with a scheme and a
    colon; [None] when the parser starts over in the no scheme state. *)
Definition scheme_start_state (input : jsstring) : option (jsstring * jsstring) :=
  match input with
  | c :: rest =>
      if is_ascii_alpha c then scheme_state rest [ascii_lowercase_unit c] else None
  | [] => None
  end.

(** *** Fragment, query and path states *)

Definition fragment_state (input : jsstring) (url : URLRecord) : URLRecord :=
  {| scheme := scheme url; host := host url; port := port url; path := path url;
     query := query url; fragment := Some input |}.

Definition set_query (q : option jsstring) (url : URLRecord) : URLRecord :=
  {| scheme := scheme url; host := host url; port := port url; path := path url;
     query := q; fragment := fragment url |}.

Definition set_path (p : list jsstring) (url : URLRecord) : URLRecord :=
  {| scheme := scheme url; host := host url; port := port url; path := p;
     query := query url; fragment := fragment url |}.

Fixpoint query_state (input buffer : jsstring) (url : URLRecord) : URLRecord :=
  match input with
  | [] => set_query (Some buffer) url
  | c :: rest =>
      if c =? NUMBER_SIGN then fragment_state rest (set_query (Some buffer) url)
      else query_state rest (buffer ++ [c]) url
  end.

Definition is_single_dot (buffer : jsstring) : bool :=
  let b := ascii_lowercase buffer in
  jsstring_eqb b (js ".") || jsstring_eqb b (js "%2e").

Definition is_double_dot (buffer : jsstring) : bool :=
  let b := ascii_lowercase buffer in
  jsstring_eqb b (js "..") || jsstring_eqb b (js ".%2e")
  || jsstring_eqb b (js "%2e.") || jsstring_eqb b (js "%2e%2e").

(** Shorten a path: remove its last item, if any. *)
Definition shorten (p : list jsstring) : list jsstring := removelast p.

(** The path state at the end of a segment; [at_solidus] tells whether
    the segment ended at a [/]. *)
Definition end_segment (at_solidus : bool) (buffer : jsstring) (p : list jsstring)
  : list jsstring :=
  if is_double_dot buffer then
    if at_solidus then shorten p else shorten p ++ [[]]
  else if is_single_dot buffer then
    if at_solidus then p else p ++ [[]]
  else p ++ [buffer].

Fixpoint path_state (input buffer : jsstring) (url : URLRecord) : URLRecord :=
  match input with
  | [] => set_path (end_segment false buffer (path url)) url
  | c :: rest =>
      if c =? SOLIDUS then
        path_state rest [] (set_path (end_segment true buffer (path url)) url)
      else if c =? QUESTION_MARK then
        query_state rest [] (set_path (end_segment false buffer (path url)) url)
      else if c =? NUMBER_SIGN then
        fragment_state rest (set_path (end_segment false buffer (path url)) url)
      else path_state rest (buffer ++ [c]) url
  end.

(** Path start state of a special URL: a leading [/] is consumed. *)
Definition path_start_state (input : jsstring) (url : URLRecord) : URLRecord :=
  match input with
  | c :: rest => if c =? SOLIDUS then path_state rest [] url else path_state input [] url
  | [] => path_state [] [] url
  end.

(** *** Authority, host and port states *)

(** The longest prefix without a unit satisfying [stop], and the rest. *)
Fixpoint span_until (stop : code_unit -> bool) (s : jsstring) : jsstring * jsstring :=
  match s with
  | [] => ([], [])
  | c :: s' =>
      if stop c then ([], s)
      else let '(pre, post) := span_until stop s' in (c :: pre, post)
  end.

Fixpoint split_on (sep : code_unit) (s : jsstring) : list jsstring :=
  match s with
  | [] => [[]]
  | c :: s' =>
      match split_on sep s' with
      | first :: others => if c =? sep then [] :: first :: others else (c :: first) :: others
      | [] => [[]]
      end
  end.

(** Labels the model covers: letters, digits and inner hyphens, no
    hyphen pair in third and fourth place (so no [xn--] label). *)
Definition covered_label (l : jsstring) : bool :=
  negb (Nat.eqb (length l) 0)
  && forallb (fun c => is_ascii_alphanumeric c || (c =? HYPHEN_MINUS)) l
  && negb (nth 0 l 0 =? HYPHEN_MINUS)
  && negb (last l 0 =? HYPHEN_MINUS)
  && negb ((nth 2 l 0 =? HYPHEN_MINUS) && (nth 3 l 0 =? HYPHEN_MINUS)).

(** Hosts the model covers: covered labels, the last of which does not
    start with a digit (so the host does not end in a number). *)
Definition covered_host (h : jsstring) : bool :=
  let labels := split_on FULL_STOP h in
  forallb covered_label labels
  && negb (is_ascii_digit (nth 0 (last labels []) 0)).

(** Host parsing of a non-opaque host: on a covered host, domain to
    ASCII lowercases and nothing else applies. *)
Definition host_parse (buffer : jsstring) : ParseResult jsstring :=
  if covered_host buffer then Parsed (ascii_lowercase buffer) else Unmodelled.

Definition decimal_value (digits : jsstring) : N :=
  fold_left (fun acc c => acc * 10 + (c - 48)) digits 0.

(** Port state on the units between the colon and the end of the
    authority. *)
Definition port_state (s buffer : jsstring) : ParseResult (option N) :=
  if forallb is_ascii_digit buffer then
    match buffer with
    | [] => Parsed None
    | _ :: _ =>
        let p := decimal_value buffer in
        if 65535 <? p then Failure
        else if match default_port s with Some d => d =? p | None => false end
        then Parsed None
        else Parsed (Some p)
    end
  else Failure.

Definition is_authority_end (c : code_unit) : bool :=
  (c =? SOLIDUS) || (c =? QUESTION_MARK) || (c =? NUMBER_SIGN).

(** Authority state, then host state on the same units, then port state
    and path start state. *)
Definition authority_state (s : jsstring) (input : jsstring) : ParseResult URLRecord :=
  let '(authority, remaining) := span_until is_authority_end input in
  let '(buffer, after_host) := span_until (N.eqb COLON) authority in
  match buffer with
  | [] => Failure
  | _ :: _ =>
      match host_parse buffer with
      | Parsed h =>
          match port_state s (tl after_host) with
          | Parsed p =>
              Parsed (path_start_state remaining
                {| scheme := s; host := h; port := p; path := [];
                   query := None; fragment := None |})
          | Failure => Failure
          | Unmodelled => Unmodelled
          end
      | Failure => Failure
      | Unmodelled => Unmodelled
      end
  end.

(** Special authority ignore slashes state: every leading [/] is
    skipped. *)
Fixpoint special_authority_ignore_slashes_state (s : jsstring) (input : jsstring)
  : ParseResult URLRecord :=
  match input with
  | c :: rest =>
      if c =? SOLIDUS then special_authority_ignore_slashes_state s rest
      else authority_state s input
  | [] => authority_state s []
  end.

(** *** Relative and relative slash states *)

(** A reference that keeps the base's query (an empty or a
    fragment-only one) is left out of the cover when that query is
    empty: engines differ on whether the bare [?] is kept. *)
Definition keeps_base_query (base : URLRecord) (url : URLRecord)
  : ParseResult URLRecord :=
  match query base with
  | Some [] => Unmodelled
  | _ => Parsed url
  end.

Definition relative_state (base : URLRecord) (input : jsstring) : ParseResult URLRecord :=
  let from_base p q :=
    {| scheme := scheme base; host := host base; port := port base;
       path := p; query := q; fragment := None |} in
  match input with
  | [] => keeps_base_query base (from_base (path base) (query base))
  | c :: rest =>
      if c =? SOLIDUS then
        match rest with
        | c' :: rest' =>
            if c' =? SOLIDUS
            then special_authority_ignore_slashes_state (scheme base) rest'
            else Parsed (path_state rest [] (from_base [] None))
        | [] => Parsed (path_state [] [] (from_base [] None))
        end
      else if c =? QUESTION_MARK then
        Parsed (query_state rest [] (from_base (path base) (Some [])))
      else if c =? NUMBER_SIGN then
        keeps_base_query base
          (fragment_state rest (from_base (path base) (query base)))
      else Parsed (path_state input [] (from_base (shorten (path base)) None))
  end.

Definition starts_with_two_solidus (input : jsstring) : option jsstring :=
  match input with
  | a :: b :: rest => if (a =? SOLIDUS) && (b =? SOLIDUS) then Some rest else None
  | _ => None
  end.

(** *** The basic URL parser *)

Definition basic_URL_parser (input : jsstring) (base : option URLRecord)
  : ParseResult URLRecord :=
  let input := prepare input in
  if negb (forallb covered_unit input) then Unmodelled
  else
    match scheme_start_state input with
    | Some (s, remaining) =>
        match default_port s with
        | None => Unmodelled
        | Some _ =>
            match base with
            | Some b =>
                if jsstring_eqb (scheme b) s then
                  (* special relative or authority state *)
                  match starts_with_two_solidus remaining with
                  | Some rest => special_authority_ignore_slashes_state s rest
                  | None => relative_state b remaining
                  end
                else special_authority_ignore_slashes_state s remaining
            | None => special_authority_ignore_slashes_state s remaining
            end
        end
    | None =>
        (* no scheme state *)
        match base with
        | None => Failure
        | Some b => relative_state b input
        end
    end.

(** *** The URL serializer *)

Definition N_to_jsstring (n : N) : jsstring :=
  js (NilZero.string_of_uint (N.to_uint n)).

Definition URL_serializer (url : URLRecord) : jsstring :=
  scheme url ++ js ":" ++ js "//" ++ host url
  ++ match port url with Some p => js ":" ++ N_to_jsstring p | None => [] end
  ++ flat_map (fun segment => js "/" ++ segment) (path url)
  ++ match query url with Some q => js "?" ++ q | None => [] end
  ++ match fragment url with Some f => js "#" ++ f | None => [] end.

(** [new URL(href, base).href] *)
Definition URL_href (href base : jsstring) : ParseResult jsstring :=
  match basic_URL_parser base None with
  | Parsed parsedBase =>
      match basic_URL_parser href (Some parsedBase) with
      | Parsed url => Parsed (URL_serializer url)
      | Failure => Failure
      | Unmodelled => Unmodelled
      end
  | Failure => Failure
  | Unmodelled => Unmodelled
  end.

End URLStandard.

(** A [URL] constructor agrees with the model on one resolution when it
    gives the model's answer there, where the model answers. *)
Definition agrees_at (URL_href : jsstring -> jsstring -> option jsstring)
  (href base : jsstring) : Prop :=
  match URLStandard.URL_href href base with
  | URLStandard.Parsed s => URL_href href base = Some s
  | URLStandard.Failure => URL_href href base = None
  | URLStandard.Unmodelled => True
  end.

(** The model as a constructor, throwing outside the model's cover. *)
Definition URL_href_covered (href base : jsstring) : option jsstring :=
  match URLStandard.URL_href href base with
  | URLStandard.Parsed s => Some s
  | URLStandard.Failure => None
  | URLStandard.Unmodelled => None
  end.

(** An absolute URL string starts with a scheme (an ASCII letter, then
    letters, digits, [+], [-] or [.]) and a colon; after [http],
    [https], [ws], [wss] or [ftp] come [//] and an authority that is
    not empty.  A relative reference such as ["/a"], ["a/b"], ["//x"]
    or [""] is not one, nor is ["https://"] or ["https:///a"]. *)
Definition absolute_url (u : jsstring) : bool :=
  match URLStandard.scheme_start_state u with
  | Some (s, rest) =>
      match URLStandard.default_port s with
      | Some _ =>
          match URLStandard.starts_with_two_solidus rest with
          | Some (c :: _) => negb (URLStandard.is_authority_end c)
          | Some [] | None => false
          end
      | None => true
      end
  | None => false
  end.



(** The message of the error the [catch] block throws for [err] with
    continue-on-failure off: an error with a context is thrown again as
    it is; any other is wrapped, and has the message the host's class
    gives it. *)
Definition rethrown_message (h : Host) (i : nat) (err : JsError) : jsstring :=
  match context err with
  | Some _ => message err
  | None => wrapped_message h i err
  end.

(** The number of [teardown] calls in a trace. *)
Definition teardown_count (calls : list Event) : nat :=
  length (filter (fun e => match e with EvTeardown _ => true | EvRun _ _ _ => false end) calls).

(** The number of [run] calls, that is of fetch attempts started. *)
Definition run_count (calls : list Event) : nat :=
  length (filter (fun e => match e with EvRun _ _ _ => true | EvTeardown _ => false end) calls).

(** An output record produced by a request handler or by the links
    branch: [status] is ['success'] and no [error] is attached. *)
Definition is_success_record (r : INodeExecutionData) : Prop :=
  member (js "status") (json r) = Some (JString (js "success")) /\ error r = None.

(** The crawler options the dispatch picks for an operation. *)
Definition options_for (operation : jsstring) (maxDepth : Z) : CrawlerOptions :=
  if jsstring_eqb operation (js "extractLinks") then linksCrawlerOptions maxDepth
  else singlePageCrawlerOptions.

(* ================================================================== *)
(** ** Concrete scenarios *)

Definition seed : jsstring := js "https://x.test/".

(** A fetched page with three anchors and some text. *)
Definition sample_page : CrawlingContext :=
  {| request_url := js "https://x.test/";
     anchor_hrefs := [js "/a"; js "https://x.test/b"; js "%%%"];
     body_text := js "  hello world  ";
     body := js "<html><body>  hello world  </body></html>" |}.

(** A page with one anchor that resolves and one on which [new URL]
    throws (a special scheme with an empty host). *)
Definition broken_anchor_page : CrawlingContext :=
  {| request_url := js "https://x.test/";
     anchor_hrefs := [js "/a"; js "https://"];
     body_text := [];
     body := [] |}.


(** A page whose text and markup are longer than both caps. *)
Definition long_page : CrawlingContext :=
  {| request_url := js "https://x.test/";
     anchor_hrefs := [];
     body_text := repeat 97%N (HTML_CAP + 1);
     body := repeat 97%N (HTML_CAP + 1) |}.

(** The host's error for an input index past the node's inputs. *)
Definition no_such_input : JsError :=
  {| name := js "Error";
     message := js "Could not get input with given index";
     context := None |}.

(** [this.getInputData(k)], [k >= 1], of a node with the single input
    [main]: [undefined] for [k = 1], the host's error from [k = 2] on. *)
Definition single_main_input (k : nat)
  : Completion (option (list INodeExecutionData)) :=
  match k with
  | 0 | 1 => Normal None
  | _ => Throw no_such_input
  end.

(** The message the host's [NodeOperationError] gives an error it
    wraps, on the errors of the scenarios: that of a refused connection
    is replaced by the host's description, any other is kept. *)
Definition descriptive_message (err : JsError) : jsstring :=
  if jsstring_eqb (message err) (js "connect ECONNREFUSED")
  then js "The service refused the connection - perhaps it is offline"
  else message err.

(** A host with one input item and parameters typed in as fixed values,
    so that every item index reads the same ones; the node has the
    single input [main]. *)
Definition static_host (url operation : jsstring) (maxDepth : Z)
  (continue : bool) (report : RunReport) : Host :=
  {| inputItems := [json_item [(js "id", JNumber 7)]];
     otherInputs := single_main_input;
     getNodeParameter_url := fun _ => Normal url;
     getNodeParameter_operation := fun _ => Normal operation;
     getNodeParameter_maxDepth := fun _ => Normal maxDepth;
     continueOnFail := continue;
     Date_now := fun _ => 1700000000000%Z;
     crawler_run := fun _ _ _ => report;
     crawler_teardown := fun _ => Normal tt;
     wrapped_message := fun _ err => descriptive_message err |}.

Definition one_page : RunReport := {| handled := [sample_page]; rejected := None |}.
Definition no_page : RunReport := {| handled := []; rejected := None |}.
Definition fetch_error : JsError :=
  {| name := js "Error"; message := js "connect ECONNREFUSED"; context := None |}.
Definition failed_run : RunReport := {| handled := []; rejected := Some fetch_error |}.

(* ================================================================== *)
(** ** Notions for the properties of whole runs *)

(** A record one of the three branches builds: the links record with a
    duplicate-free list, or the record of a text or markup handler. *)
Definition built_by_node (r : INodeExecutionData) : Prop :=
  (exists url links, r = links_record url links /\ NoDup links)
  \/ (exists url ctx, r = textRequestHandler url ctx)
  \/ (exists url ctx, r = htmlRequestHandler url ctx).

(** The item an outside call belongs to. *)
Definition event_item (e : Event) : nat :=
  match e with
  | EvRun i _ _ => i
  | EvTeardown i => i
  end.

(** The outside calls of one item: its [run], and its [teardown] when
    one was made. *)
Record ItemCalls := {
  call_item : nat;
  call_options : CrawlerOptions;
  call_requests : list jsstring;
  call_teardown : bool
}.

Definition item_events (b : ItemCalls) : list Event :=
  EvRun (call_item b) (call_options b) (call_requests b)
  :: (if call_teardown b then [EvTeardown (call_item b)] else []).

(** A trace made of the calls of items with increasing indices below
    [bound]: at most one [run] per item, a [teardown] only right after
    the [run] of the same item. *)
Definition calls_by_item (bound : nat) (calls : list Event) : Prop :=
  exists blocks,
    calls = flat_map item_events blocks
    /\ StronglySorted lt (map call_item blocks)
    /\ Forall (fun b => call_item b < bound) blocks.

(** The limits a returned record keeps: a [data.text] of at most
    50,003 units, a [data.html] of at most 100,003 units, a [data.links]
    that is an array of strings without duplicates. *)
Definition record_within_limits (r : INodeExecutionData) : Prop :=
  (forall v, member2 (js "data") (js "text") (json r) = Some v ->
     exists t, v = JString t /\ (Z.of_nat (length t) <= 50003)%Z)
  /\ (forall v, member2 (js "data") (js "html") (json r) = Some v ->
     exists m, v = JString m /\ (Z.of_nat (length m) <= 100003)%Z)
  /\ (forall v, member2 (js "data") (js "links") (json r) = Some v ->
     exists links, v = JArray (map JString links) /\ NoDup links).

(** A heap that holds the [items] array and nothing else yet. *)
Definition fresh_heap (its : list INodeExecutionData) : Heap :=
  {| items := its; returnData := []; trace := [] |}.

(** The heap [st] with the records and calls of [delta] appended and
    the [items] of [delta]. *)
Definition heap_after (st delta : Heap) : Heap :=
  {| items := items delta;
     returnData := returnData st ++ returnData delta;
     trace := trace st ++ trace delta |}.

(** The [try] block of item [i], run on a heap that holds the input
    items and nothing else. *)
Definition try_alone (URL_href : jsstring -> jsstring -> option jsstring)
  (h : Host) (i : nat) : Heap * CrawlerVar * Completion unit :=
  tryBlock URL_href h i (fresh_heap (inputItems h)).

(** What makes the [catch] block of item [i] throw with
    continue-on-failure on: [this.getInputData(i)] throws [e] itself, or
    it gives no first item to read [.json] of and [e] is the
    [TypeError]. *)
Definition input_read_failure (h : Host) (i : nat) (e : JsError) : Prop :=
  otherInputs h i = Throw e
  \/ (e = TypeError_undefined
      /\ (otherInputs h i = Normal None \/ otherInputs h i = Normal (Some []))).

(** A host of a node with the single input [main], as the description
    declares it: [this.getInputData(1)] is [undefined] or empty, and
    from index 2 on the host throws its own error. *)
Definition single_input (h : Host) : Prop :=
  (otherInputs h 1 = Normal None \/ otherInputs h 1 = Normal (Some []))
  /\ forall k, 2 <= k -> exists e, otherInputs h k = Throw e.

(** Two input items, parameters fixed, the second item's run rejected. *)
Definition two_item_host (continue : bool) : Host :=
  {| inputItems := [json_item [(js "id", JNumber 1)]; json_item [(js "id", JNumber 2)]];
     otherInputs := single_main_input;
     getNodeParameter_url := fun _ => Normal seed;
     getNodeParameter_operation := fun _ => Normal (js "extractText");
     getNodeParameter_maxDepth := fun _ => Normal 1%Z;
     continueOnFail := continue;
     Date_now := fun i => (1700000000000 + Z.of_nat i)%Z;
     crawler_run := fun i _ _ => match i with O => one_page | S _ => failed_run end;
     crawler_teardown := fun _ => Normal tt;
     wrapped_message := fun _ err => descriptive_message err |}.

(* ================================================================== *)
(** * Properties *)

(** ** Strings *)

Lemma jsstring_eqb_eq (a b : jsstring) : jsstring_eqb a b = true <-> a = b.
Proof.
  revert b; induction a as [|x a IH]; intros [|y b]; simpl; split;
    try discriminate; try reflexivity.
  - intros H. apply andb_true_iff in H as [Hx Hab].
    apply N.eqb_eq in Hx. apply IH in Hab. now subst.
  - intros H. injection H as -> ->. apply andb_true_iff. split.
    + apply N.eqb_refl.
    + now apply IH.
Qed.

Lemma jsstring_eqb_refl (a : jsstring) : jsstring_eqb a a = true.
Proof. now apply jsstring_eqb_eq. Qed.

Lemma jsstring_eqb_neq (a b : jsstring) : jsstring_eqb a b = false <-> a <> b.
Proof.
  split.
  - intros H E. apply jsstring_eqb_eq in E. congruence.
  - intros H. destruct (jsstring_eqb a b) eqn:E; [|reflexivity].
    apply jsstring_eqb_eq in E. contradiction.
Qed.

Lemma includes_unit_In (s : jsstring) (c : code_unit) :
  includes_unit s c = true <-> In c s.
Proof.
  unfold includes_unit. rewrite existsb_exists. split.
  - intros (x & Hx & E). apply N.eqb_eq in E. now subst.
  - intros H. exists c. split; [assumption | apply N.eqb_refl].
Qed.

(** [trimStart] removes a run of whitespace from the front and stops at
    the first unit that is not whitespace. *)
Lemma trimStart_spec (s : jsstring) :
  exists l, s = l ++ trimStart s /\ forallb is_js_whitespace l = true.
Proof.
  induction s as [|c s (l & E & Hl)]; simpl.
  - exists []. split; reflexivity.
  - destruct (is_js_whitespace c) eqn:Hc.
    + exists (c :: l). simpl. rewrite Hc, Hl. split; [now f_equal | reflexivity].
    + exists []. split; reflexivity.
Qed.

Lemma trimStart_head (s : jsstring) (c : code_unit) (t : jsstring) :
  trimStart s = c :: t -> is_js_whitespace c = false.
Proof.
  induction s as [|x s IH]; simpl; [discriminate|].
  destruct (is_js_whitespace x) eqn:Hx; [exact IH|].
  intros [= <- _]. exact Hx.
Qed.

Lemma trimEnd_spec (s : jsstring) :
  exists r, s = trimEnd s ++ r /\ forallb is_js_whitespace r = true.
Proof.
  induction s as [|c s (r & E & Hr)]; simpl.
  - exists []. split; reflexivity.
  - destruct (trimEnd s) as [|x kept] eqn:Ht.
    + simpl in E. subst r.
      destruct (is_js_whitespace c) eqn:Hc.
      * exists (c :: s). simpl. rewrite Hc, Hr. split; reflexivity.
      * exists s. split; [reflexivity | assumption].
    + exists r. split; [|assumption]. simpl. now f_equal.
Qed.

Lemma trimEnd_last (s t : jsstring) (c : code_unit) :
  trimEnd s = t ++ [c] -> is_js_whitespace c = false.
Proof.
  revert t. induction s as [|x s IH]; intros t; simpl.
  - destruct t; discriminate.
  - destruct (trimEnd s) as [|y kept] eqn:Ht.
    + destruct (is_js_whitespace x) eqn:Hx.
      * destruct t; discriminate.
      * destruct t as [|a [|b t]]; simpl; intros [= E]; try discriminate.
        now subst.
    + destruct t as [|a t]; simpl.
      * discriminate.
      * intros [= _ E]. exact (IH t E).
Qed.

(** [trim] cuts whitespace, and only whitespace, from both ends. *)
Lemma trim_spec (s : jsstring) :
  exists l r, s = l ++ trim s ++ r
    /\ forallb is_js_whitespace l = true
    /\ forallb is_js_whitespace r = true.
Proof.
  unfold trim. destruct (trimStart_spec s) as (l & E & Hl).
  destruct (trimEnd_spec (trimStart s)) as (r & E' & Hr).
  exists l, r. repeat split; try assumption.
  rewrite <- E'. exact E.
Qed.

Lemma trim_last (s t : jsstring) (c : code_unit) :
  trim s = t ++ [c] -> is_js_whitespace c = false.
Proof. unfold trim. apply trimEnd_last. Qed.

Lemma trim_head (s t : jsstring) (c : code_unit) :
  trim s = c :: t -> is_js_whitespace c = false.
Proof.
  unfold trim. destruct (trimEnd_spec (trimStart s)) as (r & E & _).
  intros H. rewrite H in E. simpl in E. exact (trimStart_head s c _ E).
Qed.

(** ** Truncation *)

Lemma MARKER_length : length MARKER = 3.
Proof. reflexivity. Qed.

Lemma truncateWithMarker_length (cap : nat) (s : jsstring) :
  length (truncateWithMarker cap s) <= cap + 3.
Proof.
  unfold truncateWithMarker, substring0.
  destruct (cap <? length s) eqn:E.
  - rewrite length_app, length_firstn, MARKER_length. lia.
  - apply Nat.ltb_ge in E. lia.
Qed.

Lemma truncateWithMarker_below (cap : nat) (s : jsstring) :
  length s <= cap -> truncateWithMarker cap s = s.
Proof.
  intros H. unfold truncateWithMarker.
  destruct (cap <? length s) eqn:E; [|reflexivity].
  apply Nat.ltb_lt in E. lia.
Qed.

Lemma truncateWithMarker_above (cap : nat) (s : jsstring) :
  cap < length s -> truncateWithMarker cap s = firstn cap s ++ js "...".
Proof.
  intros H. unfold truncateWithMarker.
  apply Nat.ltb_lt in H. now rewrite H.
Qed.

Lemma TEXT_CAP_value : Z.of_nat TEXT_CAP = 50000%Z.
Proof. unfold TEXT_CAP. rewrite Nat2Z.inj_mul. reflexivity. Qed.

Lemma HTML_CAP_value : Z.of_nat HTML_CAP = 100000%Z.
Proof. unfold HTML_CAP. rewrite Nat2Z.inj_mul. reflexivity. Qed.

(** ** The heap under handler invocations *)

Lemma run_pushing_spec (handler : CrawlingContext -> INodeExecutionData)
  (pages : list CrawlingContext) (st : Heap) :
  run_pushing handler pages st =
  {| items := items st;
     returnData := returnData st ++ map handler pages;
     trace := trace st |}.
Proof.
  unfold run_pushing. revert st.
  induction pages as [|p pages IH]; intros st; simpl.
  - rewrite app_nil_r. now destruct st.
  - rewrite IH. simpl. now rewrite <- app_assoc.
Qed.

Lemma run_pushing_trace handler pages st :
  trace (run_pushing handler pages st) = trace st.
Proof. now rewrite run_pushing_spec. Qed.

Lemma run_pushing_items handler pages st :
  items (run_pushing handler pages st) = items st.
Proof. now rewrite run_pushing_spec. Qed.

Lemma run_pushing_returnData handler pages st :
  returnData (run_pushing handler pages st) = returnData st ++ map handler pages.
Proof. now rewrite run_pushing_spec. Qed.

(** ** Crawler options (C4) *)

(** C4. The crawler of an [extractLinks] item is run with
    [maxRequestsPerCrawl = min(100, maxDepth * 50)] (50 for depth 1, 100
    for depth 3), concurrency 5 and a 30 second handler timeout; the
    crawler of an [extractText] or [extractHtml] item with one request,
    concurrency 1 and the same timeout. *)
Theorem C4_fetch_limits
  (URL_href : jsstring -> jsstring -> option jsstring)
  (h : Host) (i : nat) (st : Heap) (c : code_unit) (u operation : jsstring) (d : Z) :
  getNodeParameter_url h i = Normal (c :: u) ->
  getNodeParameter_operation h i = Normal operation ->
  getNodeParameter_maxDepth h i = Normal d ->
  let requests := [appendTimestampToUrl (c :: u) (Date_now h i)] in
  let calls := trace (fst (fst (tryBlock URL_href h i st))) in
  (operation = js "extractLinks" ->
     calls = trace st ++
       [EvRun i {| maxRequestsPerCrawl := Z.min 100 (d * 50);
                   requestHandlerTimeoutSecs := 30;
                   useSessionPool := false;
                   maxConcurrency := 5 |} requests]
     /\ (d = 1%Z -> maxRequestsPerCrawl (linksCrawlerOptions d) = 50%Z)
     /\ (d = 3%Z -> maxRequestsPerCrawl (linksCrawlerOptions d) = 100%Z)
     /\ ((2 <= d)%Z -> maxRequestsPerCrawl (linksCrawlerOptions d) = 100%Z))
  /\ (operation = js "extractText" \/ operation = js "extractHtml" ->
     calls = trace st ++
       [EvRun i {| maxRequestsPerCrawl := 1;
                   requestHandlerTimeoutSecs := 30;
                   useSessionPool := false;
                   maxConcurrency := 1 |} requests]).
Proof.
  intros Hurl Hop Hd requests calls. subst calls requests.
  unfold tryBlock. rewrite Hurl, Hop. split.
  - intros ->. simpl jsstring_eqb. cbv iota.
    unfold extractLinks_branch. rewrite Hd.
    repeat split.
    + destruct (rejected _); reflexivity.
    + intros ->. reflexivity.
    + intros ->. reflexivity.
    + intros Hge. unfold linksCrawlerOptions. simpl. lia.
  - intros [-> | ->]; simpl jsstring_eqb; cbv iota;
      unfold singlePage_branch; destruct (rejected _); simpl;
      now rewrite run_pushing_trace.
Qed.

(** A depth-3 links item on the one-item host. *)
Lemma C4_fetch_limits_witness :
  trace (fst (fst (tryBlock URL_href_covered
                     (static_host seed (js "extractLinks") 3 false one_page) 0
                     (initial_heap (static_host seed (js "extractLinks") 3 false one_page)))))
  = [EvRun 0 {| maxRequestsPerCrawl := Z.min 100 (3 * 50);
                requestHandlerTimeoutSecs := 30;
                useSessionPool := false;
                maxConcurrency := 5 |}
       [appendTimestampToUrl seed 1700000000000]].
Proof.
  apply (C4_fetch_limits URL_href_covered
           (static_host seed (js "extractLinks") 3 false one_page) 0
           (initial_heap (static_host seed (js "extractLinks") 3 false one_page))
           104%N (js "ttps://x.test/") (js "extractLinks") 3%Z);
    reflexivity.
Defined.

(** ** Text and markup extraction (C5) *)

(** C5. The text handler stores the body text with whitespace trimmed
    from both ends, cut to its first 50,000 units plus the marker when
    it is longer than that, so never more than 50,003 units; the markup
    handler does the same to the raw body with cap 100,000 (at most
    100,003 units); a string within its cap is stored as it is. *)
Theorem C5_extraction_caps (originalUrl : jsstring) (ctx : CrawlingContext) :
  let text := trim (body_text ctx) in
  member2 (js "data") (js "text") (json (textRequestHandler originalUrl ctx))
    = Some (JString (extracted_text ctx))
  /\ (exists l r, body_text ctx = l ++ text ++ r
        /\ forallb is_js_whitespace l = true
        /\ forallb is_js_whitespace r = true)
  /\ (forall c t, text = c :: t \/ text = t ++ [c] -> is_js_whitespace c = false)
  /\ (Z.of_nat (length (extracted_text ctx)) <= 50003)%Z
  /\ ((Z.of_nat (length text) <= 50000)%Z -> extracted_text ctx = text)
  /\ ((50000 < Z.of_nat (length text))%Z ->
        extracted_text ctx = firstn TEXT_CAP text ++ js "...")
  /\ member2 (js "data") (js "html") (json (htmlRequestHandler originalUrl ctx))
    = Some (JString (extracted_html ctx))
  /\ (Z.of_nat (length (extracted_html ctx)) <= 100003)%Z
  /\ ((Z.of_nat (length (body ctx)) <= 100000)%Z -> extracted_html ctx = body ctx)
  /\ ((100000 < Z.of_nat (length (body ctx)))%Z ->
        extracted_html ctx = firstn HTML_CAP (body ctx) ++ js "...").
Proof.
  intros text. subst text.
  pose proof TEXT_CAP_value as HT. pose proof HTML_CAP_value as HH.
  repeat apply conj.
  - reflexivity.
  - apply trim_spec.
  - intros c t [H | H]; [eapply trim_head | eapply trim_last]; exact H.
  - pose proof (truncateWithMarker_length TEXT_CAP (trim (body_text ctx))) as H.
    unfold extracted_text. lia.
  - intros H. apply truncateWithMarker_below. lia.
  - intros H. apply truncateWithMarker_above. lia.
  - reflexivity.
  - pose proof (truncateWithMarker_length HTML_CAP (body ctx)) as H.
    unfold extracted_html. lia.
  - intros H. apply truncateWithMarker_below. lia.
  - intros H. apply truncateWithMarker_above. lia.
Qed.

(** The short page is stored trimmed and unmarked; the long page is cut
    at the cap and marked. *)
Lemma C5_extraction_caps_witness :
  extracted_text sample_page = js "hello world"
  /\ extracted_html sample_page = body sample_page
  /\ extracted_text long_page = firstn TEXT_CAP (trim (body_text long_page)) ++ js "..."
  /\ extracted_html long_page = firstn HTML_CAP (body long_page) ++ js "...".
Proof.
  pose proof (C5_extraction_caps seed sample_page) as Hs.
  pose proof (C5_extraction_caps seed long_page) as Hl.
  cbv zeta in Hs, Hl.
  destruct Hs as (_ & _ & _ & _ & Hs_text & _ & _ & _ & Hs_html & _).
  destruct Hl as (_ & _ & _ & _ & _ & Hl_text & _ & _ & _ & Hl_html).
  repeat apply conj.
  - rewrite Hs_text; [reflexivity | vm_compute; discriminate].
  - apply Hs_html. vm_compute; discriminate.
  - apply Hl_text. vm_compute; reflexivity.
  - apply Hl_html. vm_compute; reflexivity.
Defined.

(** ** Link harvesting and deduplication (C6) *)

Lemma set_has_In (seen : list jsstring) (x : jsstring) :
  set_has seen x = true <-> In x seen.
Proof.
  unfold set_has. rewrite existsb_exists. split.
  - intros (y & Hy & E). apply jsstring_eqb_eq in E. now subst.
  - intros H. exists x. split; [assumption | apply jsstring_eqb_refl].
Qed.


Lemma set_add_all_NoDup (xs seen : list jsstring) :
  NoDup seen -> NoDup (set_add_all seen xs).
Proof.
  revert seen. induction xs as [|x xs IH]; intros seen Hnd; simpl.
  - assumption.
  - destruct (set_has seen x) eqn:E.
    + now apply IH.
    + apply IH. apply NoDup_app.
      * assumption.
      * repeat constructor. intros [].
      * intros y Hy [<- | []].
        apply set_has_In in Hy. congruence.
Qed.

Lemma spread_new_Set_NoDup (xs : list jsstring) : NoDup (spread_new_Set xs).
Proof. apply set_add_all_NoDup. constructor. Qed.


Section Links.

Variable URL_href : jsstring -> jsstring -> option jsstring.




End Links.

(** *** The model's [href]s are absolute URL strings *)

Example absolute_url_examples :
  absolute_url (js "https://x.test/a") = true
  /\ absolute_url (js "mailto:a@x.test") = true
  /\ absolute_url (js "/a") = false
  /\ absolute_url (js "a/b") = false
  /\ absolute_url (js "//x.test/a") = false
  /\ absolute_url (js "https://") = false
  /\ absolute_url (js "https:///a") = false
  /\ absolute_url [] = false.
Proof. repeat split. Qed.


















(** ** Anchors that do not resolve (C7) *)

(** The model on references whose resolution is well known. *)
Example URL_href_dot_segments :
  URLStandard.URL_href (js "../c/./d?x=1#f") (js "https://X.test:443/a/b/c?_=17")
  = URLStandard.Parsed (js "https://x.test/a/c/d?x=1#f").
Proof. reflexivity. Qed.

Example URL_href_scheme_relative :
  URLStandard.URL_href (js "//y.test:8080") (js "https://x.test/q")
  = URLStandard.Parsed (js "https://y.test:8080/").
Proof. reflexivity. Qed.

Example URL_href_fragment_only :
  URLStandard.URL_href (js "#top") (js "https://x.test/q?_=1")
  = URLStandard.Parsed (js "https://x.test/q?_=1#top").
Proof. reflexivity. Qed.

Example URL_href_stray_percent :
  URLStandard.URL_href (js "%%%") (js "https://x.test/")
  = URLStandard.Parsed (js "https://x.test/%%%").
Proof. reflexivity. Qed.

Example URL_href_empty_host :
  URLStandard.URL_href (js "https://") (js "https://x.test/") = URLStandard.Failure.
Proof. reflexivity. Qed.

Example URL_href_port_out_of_range :
  URLStandard.URL_href (js "http://x.test:99999/") (js "https://x.test/")
  = URLStandard.Failure.
Proof. reflexivity. Qed.

Example URL_href_base_without_scheme :
  URLStandard.URL_href (js "/a") (js "x.test") = URLStandard.Failure.
Proof. reflexivity. Qed.

Example URL_href_other_scheme :
  URLStandard.URL_href (js "mailto:a") (js "https://x.test/") = URLStandard.Unmodelled.
Proof. reflexivity. Qed.

Lemma URL_href_covered_agrees (href base : jsstring) :
  agrees_at URL_href_covered href base.
Proof.
  unfold agrees_at, URL_href_covered.
  destruct (URLStandard.URL_href href base); reflexivity.
Qed.

(** Rewrites a call of the constructor on literal arguments with the
    model's answer, given the agreement on that resolution. *)
Ltac resolve_with Hagrees :=
  let H := fresh "Hresolved" in
  pose proof Hagrees as H;
  cbv in H; rewrite H; clear H.

(** C7, as the code has it.  With anchors ["/a"], ["https://x.test/b"]
    and ["%%%"] on a page requested as ["https://x.test/"], the handler
    collects three links: ["%%%"] is a relative reference and resolves
    to ["https://x.test/%%%"].  An [href] on which the constructor
    throws, such as ["https://"], is left out, and the item still ends
    in its success record.  The constructor is asked to agree with the
    URL Standard on these four resolutions only. *)
Theorem C7_unresolvable_href_skipped
  (URL_href : jsstring -> jsstring -> option jsstring) :
  agrees_at URL_href (js "/a") (js "https://x.test/") ->
  agrees_at URL_href (js "https://x.test/b") (js "https://x.test/") ->
  agrees_at URL_href (js "%%%") (js "https://x.test/") ->
  agrees_at URL_href (js "https://") (js "https://x.test/") ->
  collect_links URL_href sample_page
    = [js "https://x.test/a"; js "https://x.test/b"; js "https://x.test/%%%"]
  /\ collect_links URL_href broken_anchor_page = [js "https://x.test/a"]
  /\ execute URL_href 1
       (static_host seed (js "extractLinks") 1 false
          {| handled := [broken_anchor_page]; rejected := None |})
     = Returned [[links_record seed [js "https://x.test/a"]]]
         [EvRun 0 (linksCrawlerOptions 1)
            [js "https://x.test/?_=1700000000000"]].
Proof.
  intros Ha Hb Hpercent Hhostless.
  assert (Hsample : collect_links URL_href sample_page
    = [js "https://x.test/a"; js "https://x.test/b"; js "https://x.test/%%%"]).
  { cbv.
    resolve_with Ha. resolve_with Hb. resolve_with Hpercent.
    reflexivity. }
  assert (Hbroken : collect_links URL_href broken_anchor_page = [js "https://x.test/a"]).
  { cbv.
    resolve_with Ha. resolve_with Hhostless.
    reflexivity. }
  repeat apply conj; try assumption.
  cbv.
  resolve_with Ha. resolve_with Hhostless.
  reflexivity.
Qed.

Lemma C7_unresolvable_href_skipped_witness :
  collect_links URL_href_covered sample_page
    = [js "https://x.test/a"; js "https://x.test/b"; js "https://x.test/%%%"]
  /\ collect_links URL_href_covered broken_anchor_page = [js "https://x.test/a"].
Proof.
  destruct (C7_unresolvable_href_skipped URL_href_covered
              (URL_href_covered_agrees (js "/a") (js "https://x.test/"))
              (URL_href_covered_agrees (js "https://x.test/b") (js "https://x.test/"))
              (URL_href_covered_agrees (js "%%%") (js "https://x.test/"))
              (URL_href_covered_agrees (js "https://") (js "https://x.test/")))
    as (Hsample & Hbroken & _).
  split; assumption.
Defined.

(** The claim's two-link set is not what a constructor that agrees
    with the URL Standard on the three anchors yields on the sample
    page. *)
Lemma C7_counterexample :
  ~ (forall URL_href,
       agrees_at URL_href (js "/a") (js "https://x.test/") ->
       agrees_at URL_href (js "https://x.test/b") (js "https://x.test/") ->
       agrees_at URL_href (js "%%%") (js "https://x.test/") ->
       forall l, In l (collect_links URL_href sample_page)
                 <-> In l [js "https://x.test/a"; js "https://x.test/b"]).
Proof.
  intros H.
  specialize (H URL_href_covered
                (URL_href_covered_agrees _ _) (URL_href_covered_agrees _ _)
                (URL_href_covered_agrees _ _) (js "https://x.test/%%%")).
  destruct H as [H _].
  assert (Hin : In (js "https://x.test/%%%") (collect_links URL_href_covered sample_page)).
  { vm_compute. right. right. left. reflexivity. }
  apply H in Hin. destruct Hin as [E | [E | []]]; vm_compute in E; discriminate E.
Qed.

(** ** The [catch] and [finally] blocks on the heap *)

Lemma catchBlock_trace (h : Host) (i : nat) (e : JsError) (st : Heap) :
  trace (fst (catchBlock h i e st)) = trace st.
Proof.
  unfold catchBlock. destruct (continueOnFail h).
  - destruct (getInputData h st i) as [[[|first rest]|]|host_error]; reflexivity.
  - destruct (context e); reflexivity.
Qed.

Lemma catchBlock_returnData (h : Host) (i : nat) (e : JsError) (st : Heap) :
  returnData (fst (catchBlock h i e st)) = returnData st.
Proof.
  unfold catchBlock. destruct (continueOnFail h).
  - destruct (getInputData h st i) as [[[|first rest]|]|host_error]; reflexivity.
  - destruct (context e); reflexivity.
Qed.

(** With continue-on-failure off, the [catch] block rethrows with the
    item index in the context and touches nothing. *)
Lemma catchBlock_rethrows (h : Host) (i : nat) (e : JsError) (st : Heap) :
  continueOnFail h = false ->
  exists e', catchBlock h i e st = (st, Throw e')
    /\ message e' = rethrown_message h i e
    /\ context e' = Some {| itemIndex := Some i |}.
Proof.
  intros Hc. unfold catchBlock, rethrown_message. rewrite Hc.
  destruct (context e); eexists; repeat split.
Qed.

Lemma finallyBlock_trace (h : Host) (i : nat) (crawler : CrawlerVar) (st : Heap) :
  trace (finallyBlock h i crawler st) =
  trace st ++ match crawler with Some _ => [EvTeardown i] | None => [] end.
Proof.
  unfold finallyBlock. destruct crawler.
  - destruct (crawler_teardown h i); reflexivity.
  - now rewrite app_nil_r.
Qed.

Lemma finallyBlock_returnData (h : Host) (i : nat) (crawler : CrawlerVar) (st : Heap) :
  returnData (finallyBlock h i crawler st) = returnData st.
Proof.
  unfold finallyBlock. destruct crawler; [destruct (crawler_teardown h i)|]; reflexivity.
Qed.

Lemma finallyBlock_items (h : Host) (i : nat) (crawler : CrawlerVar) (st : Heap) :
  items (finallyBlock h i crawler st) = items st.
Proof.
  unfold finallyBlock. destruct crawler; [destruct (crawler_teardown h i)|]; reflexivity.
Qed.

(** ** Validation of the URL (C8) *)

(** C8. An item whose [url] parameter is empty (or missing, so that the
    fallback [''] is read) throws "URL is required" with the item's
    index, whatever the operation, and its round starts no crawler run
    and adds no record. *)
Theorem C8_empty_url_fails_before_fetch
  (URL_href : jsstring -> jsstring -> option jsstring)
  (h : Host) (i : nat) (st : Heap) (operation : jsstring) :
  getNodeParameter_url h i = Normal [] ->
  getNodeParameter_operation h i = Normal operation ->
  tryBlock URL_href h i st
    = (st, None, Throw (NodeOperationError (js "URL is required") i))
  /\ trace (fst (iteration URL_href h i st)) = trace st
  /\ run_count (trace (fst (iteration URL_href h i st))) = run_count (trace st)
  /\ returnData (fst (iteration URL_href h i st)) = returnData st
  /\ (continueOnFail h = false ->
      iteration URL_href h i st
        = (st, Throw (NodeOperationError (js "URL is required") i))).
Proof.
  intros Hurl Hop.
  assert (Htry : tryBlock URL_href h i st
            = (st, None, Throw (NodeOperationError (js "URL is required") i))).
  { unfold tryBlock. now rewrite Hurl, Hop. }
  assert (Htrace : trace (fst (iteration URL_href h i st)) = trace st).
  { unfold iteration. rewrite Htry.
    destruct (catchBlock h i _ st) as [st2 c2] eqn:Hcatch. simpl.
    pose proof (catchBlock_trace h i (NodeOperationError (js "URL is required") i) st) as H.
    rewrite Hcatch in H. exact H. }
  repeat apply conj.
  - exact Htry.
  - exact Htrace.
  - now rewrite Htrace.
  - unfold iteration. rewrite Htry.
    destruct (catchBlock h i _ st) as [st2 c2] eqn:Hcatch. simpl.
    pose proof (catchBlock_returnData h i (NodeOperationError (js "URL is required") i) st) as H.
    rewrite Hcatch in H. exact H.
  - intros Hc. unfold iteration. rewrite Htry.
    unfold catchBlock. rewrite Hc. reflexivity.
Qed.

(** The one-item host with the URL left empty, continue-on-failure off. *)
Lemma C8_empty_url_fails_before_fetch_witness :
  iteration URL_href_covered (static_host [] (js "extractHtml") 1 false one_page) 0
    (initial_heap (static_host [] (js "extractHtml") 1 false one_page))
  = (initial_heap (static_host [] (js "extractHtml") 1 false one_page),
     Throw (NodeOperationError (js "URL is required") 0)).
Proof.
  apply (C8_empty_url_fails_before_fetch URL_href_covered
           (static_host [] (js "extractHtml") 1 false one_page) 0
           (initial_heap (static_host [] (js "extractHtml") 1 false one_page))
           (js "extractHtml") eq_refl eq_refl).
  reflexivity.
Defined.

(** ** Operations outside the three (C9) *)

(** C9. An item with a non-empty [url] and an operation other than
    ['extractLinks'], ['extractText'] and ['extractHtml'] falls through
    the dispatch: its round leaves [items], [returnData] and the trace
    as they were and completes normally. *)
Theorem C9_unknown_operation_skipped
  (URL_href : jsstring -> jsstring -> option jsstring)
  (h : Host) (i : nat) (st : Heap) (c : code_unit) (u operation : jsstring) :
  getNodeParameter_url h i = Normal (c :: u) ->
  getNodeParameter_operation h i = Normal operation ->
  operation <> js "extractLinks" ->
  operation <> js "extractText" ->
  operation <> js "extractHtml" ->
  iteration URL_href h i st = (st, Normal tt).
Proof.
  intros Hurl Hop H1 H2 H3.
  apply jsstring_eqb_neq in H1, H2, H3.
  unfold iteration, tryBlock. rewrite Hurl, Hop, H1, H2, H3. reflexivity.
Qed.

(** An item asking for ['extractTitle'] leaves the output empty. *)
Lemma C9_unknown_operation_skipped_witness :
  execute URL_href_covered 1 (static_host seed (js "extractTitle") 1 false one_page)
  = Returned [[]] [].
Proof.
  unfold execute. cbn [item_loop initial_heap static_host inputItems items length Nat.ltb Nat.leb].
  rewrite (C9_unknown_operation_skipped URL_href_covered
             (static_host seed (js "extractTitle") 1 false one_page) 0 _
             104%N (js "ttps://x.test/") (js "extractTitle") eq_refl eq_refl).
  - reflexivity.
  - vm_compute; discriminate.
  - vm_compute; discriminate.
  - vm_compute; discriminate.
Defined.

(** ** The [try] block of a crawling item *)

Lemma handler_records_success (handler : jsstring -> CrawlingContext -> INodeExecutionData)
  (url : jsstring) (pages : list CrawlingContext) :
  (forall ctx, is_success_record (handler url ctx)
               /\ member2 (js "data") (js "url") (json (handler url ctx))
                  = Some (JString url)) ->
  Forall (fun r => is_success_record r
                   /\ member2 (js "data") (js "url") (json r) = Some (JString url))
         (map (handler url) pages).
Proof.
  intros H. apply Forall_forall. intros r Hr.
  apply in_map_iff in Hr as (ctx & <- & _). apply H.
Qed.

(** What the [try] block does for an item that reaches one of the three
    branches: one [run] call on the cache-busted request, success
    records carrying the caller's URL, and the [crawler] variable left
    set exactly when the run was rejected. *)
Lemma tryBlock_crawl
  (URL_href : jsstring -> jsstring -> option jsstring)
  (h : Host) (i : nat) (st : Heap) (c : code_unit) (u operation : jsstring) (d : Z) :
  getNodeParameter_url h i = Normal (c :: u) ->
  getNodeParameter_operation h i = Normal operation ->
  (operation = js "extractLinks" -> getNodeParameter_maxDepth h i = Normal d) ->
  operation = js "extractLinks" \/ operation = js "extractText"
    \/ operation = js "extractHtml" ->
  let opts := options_for operation d in
  let requests := [appendTimestampToUrl (c :: u) (Date_now h i)] in
  let report := crawler_run h i opts requests in
  exists added,
    tryBlock URL_href h i st =
      ({| items := items st;
          returnData := returnData st ++ added;
          trace := trace st ++ [EvRun i opts requests] |},
       match rejected report with Some _ => Some opts | None => None end,
       match rejected report with Some e => Throw e | None => Normal tt end)
    /\ Forall (fun r => is_success_record r
                        /\ member2 (js "data") (js "url") (json r)
                           = Some (JString (c :: u))) added.
Proof.
  intros Hurl Hop Hd Hcase opts requests report.
  unfold tryBlock. rewrite Hurl, Hop.
  destruct Hcase as [-> | [-> | ->]]; simpl jsstring_eqb; cbv iota.
  - unfold extractLinks_branch. rewrite (Hd eq_refl).
    change (linksCrawlerOptions d) with opts. fold requests. fold report.
    destruct (rejected report) as [e|].
    + exists []. split; [|constructor].
      unfold emit. now rewrite app_nil_r.
    + eexists. split; [reflexivity|].
      repeat constructor.
  - unfold singlePage_branch.
    change singlePageCrawlerOptions with opts. fold requests. fold report.
    rewrite run_pushing_spec. simpl.
    exists (map (textRequestHandler (c :: u)) (handled report)). split.
    + destruct (rejected report); reflexivity.
    + apply (handler_records_success textRequestHandler).
      intros ctx. repeat split.
  - unfold singlePage_branch.
    change singlePageCrawlerOptions with opts. fold requests. fold report.
    rewrite run_pushing_spec. simpl.
    exists (map (htmlRequestHandler (c :: u)) (handled report)). split.
    + destruct (rejected report); reflexivity.
    + apply (handler_records_success htmlRequestHandler).
      intros ctx. repeat split.
Qed.

(** ** Zero handled pages (C1) *)

(** C1, as the code has it.  For an item whose run hands no page to the
    handler: when the run is rejected, the error leaves the [try] block
    and no record is added; when the run resolves, an [extractText] or
    [extractHtml] item adds no record at all (no empty text or markup
    is put in its place) and completes normally, and an [extractLinks]
    item adds the success record with an empty [links] list. *)
Theorem C1_zero_pages_outcome
  (URL_href : jsstring -> jsstring -> option jsstring)
  (h : Host) (i : nat) (st : Heap) (c : code_unit) (u operation : jsstring) (d : Z) :
  getNodeParameter_url h i = Normal (c :: u) ->
  getNodeParameter_operation h i = Normal operation ->
  (operation = js "extractLinks" -> getNodeParameter_maxDepth h i = Normal d) ->
  operation = js "extractLinks" \/ operation = js "extractText"
    \/ operation = js "extractHtml" ->
  let opts := options_for operation d in
  let requests := [appendTimestampToUrl (c :: u) (Date_now h i)] in
  let report := crawler_run h i opts requests in
  let st1 := emit (EvRun i opts requests) st in
  handled report = [] ->
  (forall e, rejected report = Some e ->
     tryBlock URL_href h i st = (st1, Some opts, Throw e))
  /\ (rejected report = None -> operation <> js "extractLinks" ->
     tryBlock URL_href h i st = (st1, None, Normal tt))
  /\ (rejected report = None -> operation = js "extractLinks" ->
     tryBlock URL_href h i st
       = (push_returnData (links_record (c :: u) []) st1, None, Normal tt)).
Proof.
  intros Hurl Hop Hd Hcase opts requests report st1 Hzero.
  unfold tryBlock. rewrite Hurl, Hop.
  destruct Hcase as [-> | [-> | ->]]; simpl jsstring_eqb; cbv iota.
  - unfold extractLinks_branch. rewrite (Hd eq_refl).
    change (linksCrawlerOptions d) with opts. fold requests. fold report.
    rewrite Hzero. repeat apply conj.
    + intros e ->. reflexivity.
    + intros _ Hne. now contradiction Hne.
    + intros -> _. reflexivity.
  - unfold singlePage_branch.
    change singlePageCrawlerOptions with opts. fold requests. fold report.
    rewrite Hzero. repeat apply conj.
    + intros e ->. reflexivity.
    + intros -> _. reflexivity.
    + intros _ E. discriminate E.
  - unfold singlePage_branch.
    change singlePageCrawlerOptions with opts. fold requests. fold report.
    rewrite Hzero. repeat apply conj.
    + intros e ->. reflexivity.
    + intros -> _. reflexivity.
    + intros _ E. discriminate E.
Qed.

(** A refused connection reported by a rejected run. *)
Lemma C1_zero_pages_outcome_witness :
  tryBlock URL_href_covered (static_host seed (js "extractText") 1 false failed_run) 0
    (initial_heap (static_host seed (js "extractText") 1 false failed_run))
  = (emit (EvRun 0 singlePageCrawlerOptions [appendTimestampToUrl seed 1700000000000])
       (initial_heap (static_host seed (js "extractText") 1 false failed_run)),
     Some singlePageCrawlerOptions, Throw fetch_error).
Proof.
  apply (C1_zero_pages_outcome URL_href_covered
           (static_host seed (js "extractText") 1 false failed_run) 0
           (initial_heap (static_host seed (js "extractText") 1 false failed_run))
           104%N (js "ttps://x.test/") (js "extractText") 1%Z
           eq_refl eq_refl (fun _ => eq_refl) (or_intror (or_introl eq_refl)) eq_refl).
  reflexivity.
Defined.

(** A run that resolves without having handled a page: the links item
    returns a success record with no links, the text item returns
    nothing, and neither raises. *)
Lemma C1_counterexample :
  handled no_page = []
  /\ execute URL_href_covered 1 (static_host seed (js "extractLinks") 1 false no_page)
     = Returned [[links_record seed []]]
         [EvRun 0 (linksCrawlerOptions 1) [appendTimestampToUrl seed 1700000000000]]
  /\ is_success_record (links_record seed [])
  /\ member2 (js "data") (js "links") (json (links_record seed [])) = Some (JArray [])
  /\ execute URL_href_covered 1 (static_host seed (js "extractText") 1 false no_page)
     = Returned [[]]
         [EvRun 0 singlePageCrawlerOptions [appendTimestampToUrl seed 1700000000000]].
Proof. repeat split. Qed.

(** ** Teardown (C3) *)

(** C3, as the code has it.  For an item that builds a crawler: when
    its run is rejected, the round calls [teardown] exactly once, after
    the run and before the round ends, whatever [teardown] itself does,
    and with continue-on-failure off the error reaches the caller of
    [execute] only after that call, with the item index in its context
    and the message the [catch] block leaves it (its own when it has a
    context, the one the host's wrapper gives it otherwise); when the
    run resolves, the handle is cleared and the round calls [teardown]
    not at all. *)
Theorem C3_teardown_on_rejected_run_only
  (URL_href : jsstring -> jsstring -> option jsstring)
  (h : Host) (i : nat) (st : Heap) (c : code_unit) (u operation : jsstring) (d : Z) :
  getNodeParameter_url h i = Normal (c :: u) ->
  getNodeParameter_operation h i = Normal operation ->
  (operation = js "extractLinks" -> getNodeParameter_maxDepth h i = Normal d) ->
  operation = js "extractLinks" \/ operation = js "extractText"
    \/ operation = js "extractHtml" ->
  let opts := options_for operation d in
  let requests := [appendTimestampToUrl (c :: u) (Date_now h i)] in
  let report := crawler_run h i opts requests in
  let round := iteration URL_href h i st in
  (forall e, rejected report = Some e ->
     trace (fst round) = trace st ++ [EvRun i opts requests; EvTeardown i]
     /\ teardown_count (trace (fst round)) = teardown_count (trace st) + 1
     /\ (continueOnFail h = false ->
         exists e', snd round = Throw e'
           /\ message e' = rethrown_message h i e
           /\ context e' = Some {| itemIndex := Some i |}
           /\ (i < length (items st) ->
               forall fuel, item_loop URL_href (S fuel) h i st
                            = Raised e' (trace st ++ [EvRun i opts requests; EvTeardown i]))))
  /\ (rejected report = None ->
     trace (fst round) = trace st ++ [EvRun i opts requests]
     /\ teardown_count (trace (fst round)) = teardown_count (trace st)
     /\ snd round = Normal tt).
Proof.
  intros Hurl Hop Hd Hcase opts requests report round.
  destruct (tryBlock_crawl URL_href h i st c u operation d Hurl Hop Hd Hcase)
    as (added & Htry & _).
  fold opts requests report in Htry.
  assert (Hcount : forall l extra,
            teardown_count (l ++ extra) = teardown_count l + teardown_count extra).
  { intros l extra. unfold teardown_count. now rewrite filter_app, length_app. }
  split.
  - intros e He. rewrite He in Htry.
    assert (Htrace : trace (fst round)
              = trace st ++ [EvRun i opts requests; EvTeardown i]).
    { subst round. unfold iteration. rewrite Htry.
      destruct (catchBlock h i e _) as [st2 c2] eqn:Hcatch. cbn [fst].
      rewrite finallyBlock_trace.
      pose proof (catchBlock_trace h i e
        {| items := items st; returnData := returnData st ++ added;
           trace := trace st ++ [EvRun i opts requests] |}) as H.
      rewrite Hcatch in H. simpl in H. rewrite H.
      now rewrite <- app_assoc. }
    repeat apply conj.
    + exact Htrace.
    + rewrite Htrace, Hcount. reflexivity.
    + intros Hoff.
      destruct (catchBlock_rethrows h i e
        {| items := items st; returnData := returnData st ++ added;
           trace := trace st ++ [EvRun i opts requests] |} Hoff)
        as (e' & Hcatch & Hmsg & Hctx).
      assert (Hround : round =
        (finallyBlock h i (Some opts)
           {| items := items st; returnData := returnData st ++ added;
              trace := trace st ++ [EvRun i opts requests] |}, Throw e')).
      { subst round. unfold iteration. rewrite Htry, Hcatch. reflexivity. }
      exists e'. repeat apply conj; try assumption.
      * now rewrite Hround.
      * intros Hlt fuel. simpl item_loop.
        apply Nat.ltb_lt in Hlt. rewrite Hlt.
        fold round. rewrite Hround.
        rewrite finallyBlock_trace. simpl. now rewrite <- app_assoc.
  - intros Hok. rewrite Hok in Htry.
    assert (Hround : round =
      ({| items := items st; returnData := returnData st ++ added;
          trace := trace st ++ [EvRun i opts requests] |}, Normal tt)).
    { subst round. unfold iteration. rewrite Htry. reflexivity. }
    rewrite Hround. simpl. repeat apply conj; try reflexivity.
    rewrite Hcount. change (teardown_count [EvRun i opts requests]) with 0. lia.
Qed.

(** A rejected text run with continue-on-failure off: one [teardown]
    call, made before the error is raised. *)
Lemma C3_teardown_on_rejected_run_only_witness :
  teardown_count
    (trace (fst (iteration URL_href_covered
                   (static_host seed (js "extractText") 1 false failed_run) 0
                   (initial_heap (static_host seed (js "extractText") 1 false failed_run)))))
  = teardown_count [] + 1.
Proof.
  destruct (C3_teardown_on_rejected_run_only URL_href_covered
              (static_host seed (js "extractText") 1 false failed_run) 0
              (initial_heap (static_host seed (js "extractText") 1 false failed_run))
              104%N (js "ttps://x.test/") (js "extractText") 1%Z
              eq_refl eq_refl (fun _ => eq_refl) (or_intror (or_introl eq_refl)))
    as [Hrejected _].
  destruct (Hrejected fetch_error eq_refl) as (_ & Hcount & _).
  exact Hcount.
Defined.

(** A text item whose page is fetched and handled: a crawler is built
    and run, the record is returned, and [teardown] is never called. *)
Lemma C3_counterexample :
  execute URL_href_covered 1 (static_host seed (js "extractText") 1 false one_page)
  = Returned [[textRequestHandler seed sample_page]]
      [EvRun 0 singlePageCrawlerOptions [appendTimestampToUrl seed 1700000000000]]
  /\ run_count
       [EvRun 0 singlePageCrawlerOptions [appendTimestampToUrl seed 1700000000000]] = 1
  /\ teardown_count
       [EvRun 0 singlePageCrawlerOptions [appendTimestampToUrl seed 1700000000000]] = 0.
Proof. repeat split. Qed.

(** ** What every round adds to the heap *)

Section Rounds.

Variable URL_href : jsstring -> jsstring -> option jsstring.
Variable h : Host.

Lemma tryBlock_shape (i : nat) (st : Heap) :
  exists added calls,
    items (fst (fst (tryBlock URL_href h i st))) = items st
    /\ returnData (fst (fst (tryBlock URL_href h i st))) = returnData st ++ added
    /\ trace (fst (fst (tryBlock URL_href h i st))) = trace st ++ calls
    /\ Forall is_success_record added.
Proof.
  assert (Hnothing : forall cv c,
    tryBlock URL_href h i st = (st, cv, c) ->
    exists added calls,
      items (fst (fst (tryBlock URL_href h i st))) = items st
      /\ returnData (fst (fst (tryBlock URL_href h i st))) = returnData st ++ added
      /\ trace (fst (fst (tryBlock URL_href h i st))) = trace st ++ calls
      /\ Forall is_success_record added).
  { intros cv c E. exists [], []. rewrite E. simpl. rewrite !app_nil_r.
    repeat split. constructor. }
  assert (Hcrawl : forall c u operation d,
    getNodeParameter_url h i = Normal (c :: u) ->
    getNodeParameter_operation h i = Normal operation ->
    (operation = js "extractLinks" -> getNodeParameter_maxDepth h i = Normal d) ->
    operation = js "extractLinks" \/ operation = js "extractText"
      \/ operation = js "extractHtml" ->
    exists added calls,
      items (fst (fst (tryBlock URL_href h i st))) = items st
      /\ returnData (fst (fst (tryBlock URL_href h i st))) = returnData st ++ added
      /\ trace (fst (fst (tryBlock URL_href h i st))) = trace st ++ calls
      /\ Forall is_success_record added).
  { intros c u operation d Hurl Hop Hd Hcase.
    destruct (tryBlock_crawl URL_href h i st c u operation d Hurl Hop Hd Hcase)
      as (added & Htry & Hadded).
    exists added. eexists. rewrite Htry. simpl. repeat split.
    eapply Forall_impl; [|exact Hadded]. now intros r [Hs _]. }
  destruct (getNodeParameter_url h i) as [url|e] eqn:Hurl.
  2: { eapply Hnothing. unfold tryBlock. rewrite Hurl. reflexivity. }
  destruct (getNodeParameter_operation h i) as [operation|e] eqn:Hop.
  2: { eapply Hnothing. unfold tryBlock. rewrite Hurl, Hop. reflexivity. }
  destruct url as [|c u].
  { eapply Hnothing. unfold tryBlock. rewrite Hurl, Hop. reflexivity. }
  destruct (jsstring_eq_dec operation (js "extractLinks")) as [El|Nl].
  { destruct (getNodeParameter_maxDepth h i) as [d|e] eqn:Hd.
    - apply (Hcrawl c u operation d); auto.
    - eapply Hnothing. unfold tryBlock. rewrite Hurl, Hop. subst operation.
      simpl jsstring_eqb. cbv iota. unfold extractLinks_branch. rewrite Hd.
      reflexivity. }
  destruct (jsstring_eq_dec operation (js "extractText")) as [Et|Nt].
  { apply (Hcrawl c u operation 0%Z); auto. intros E. contradiction. }
  destruct (jsstring_eq_dec operation (js "extractHtml")) as [Eh|Nh].
  { apply (Hcrawl c u operation 0%Z); auto. intros E. contradiction. }
  eapply Hnothing. unfold tryBlock. rewrite Hurl, Hop.
  apply jsstring_eqb_neq in Nl, Nt, Nh. rewrite Nl, Nt, Nh. reflexivity.
Qed.

Lemma iteration_shape (i : nat) (st : Heap) :
  exists added calls,
    returnData (fst (iteration URL_href h i st)) = returnData st ++ added
    /\ trace (fst (iteration URL_href h i st)) = trace st ++ calls
    /\ Forall is_success_record added.
Proof.
  destruct (tryBlock_shape i st) as (added & calls & _ & Hret & Htr & Hadded).
  unfold iteration.
  destruct (tryBlock URL_href h i st) as [[st1 crawler] c]. simpl in Hret, Htr.
  assert (Hcatch : exists st2 c2,
    match c with
    | Normal _ => (st1, Normal tt)
    | Throw e => catchBlock h i e st1
    end = (st2, c2)
    /\ returnData st2 = returnData st1 /\ trace st2 = trace st1).
  { destruct c as [[]|e].
    - exists st1, (Normal tt). repeat split.
    - destruct (catchBlock h i e st1) as [st2 c2] eqn:E. exists st2, c2.
      pose proof (catchBlock_returnData h i e st1) as H1.
      pose proof (catchBlock_trace h i e st1) as H2.
      rewrite E in H1, H2. repeat split; assumption. }
  destruct Hcatch as (st2 & c2 & -> & Hret2 & Htr2). cbn [fst].
  exists added,
    (calls ++ match crawler with Some _ => [EvTeardown i] | None => [] end).
  rewrite finallyBlock_returnData, finallyBlock_trace, Hret2, Htr2, Hret, Htr.
  repeat split.
  - now rewrite app_assoc.
  - exact Hadded.
Qed.

(** The loop invariant: the records returned so far are the node's own
    success records. *)
Lemma item_loop_invariant (fuel i : nat) (st : Heap) :
  Forall is_success_record (returnData st) ->
  match item_loop URL_href fuel h i st with
  | Returned out _ => Forall is_success_record (concat out)
  | Raised _ _ | OutOfFuel => True
  end.
Proof.
  revert i st. induction fuel as [|fuel IH]; intros i st Hret; simpl.
  - destruct (i <? length (items st)); [exact I|].
    simpl. now rewrite app_nil_r.
  - destruct (i <? length (items st)).
    + destruct (iteration_shape i st) as (added & calls & Hr & Ht & Hadded).
      destruct (iteration URL_href h i st) as [st' [[]|e]]; simpl in Hr, Ht.
      * apply IH. rewrite Hr. apply Forall_app. now split.
      * exact I.
    + simpl. now rewrite app_nil_r.
Qed.

Lemma execute_invariant (fuel : nat) :
  match execute URL_href fuel h with
  | Returned out _ => Forall is_success_record (concat out)
  | Raised _ _ | OutOfFuel => True
  end.
Proof. apply item_loop_invariant; constructor. Qed.

End Rounds.

(** ** Termination with continue-on-failure off *)

Lemma iteration_items
  (URL_href : jsstring -> jsstring -> option jsstring)
  (h : Host) (i : nat) (st : Heap) :
  continueOnFail h = false ->
  items (fst (iteration URL_href h i st)) = items st.
Proof.
  intros Hoff.
  destruct (tryBlock_shape URL_href h i st) as (added & calls & Hit & _).
  unfold iteration.
  destruct (tryBlock URL_href h i st) as [[st1 crawler] c]. simpl in Hit.
  destruct c as [[]|e]; cbn [fst].
  - now rewrite finallyBlock_items.
  - destruct (catchBlock_rethrows h i e st1 Hoff) as (e' & -> & _).
    cbn [fst]. now rewrite finallyBlock_items.
Qed.

(** With continue-on-failure off the [items] array never grows, and one
    unit of fuel per remaining item is enough for the loop to end. *)
Lemma item_loop_total
  (URL_href : jsstring -> jsstring -> option jsstring)
  (h : Host) (fuel i : nat) (st : Heap) :
  continueOnFail h = false ->
  length (items st) - i <= fuel ->
  item_loop URL_href fuel h i st <> OutOfFuel.
Proof.
  intros Hoff. revert i st.
  induction fuel as [|fuel IH]; intros i st Hfuel; simpl.
  - destruct (i <? length (items st)) eqn:E; [|discriminate].
    apply Nat.ltb_lt in E. lia.
  - destruct (i <? length (items st)) eqn:E; [|discriminate].
    apply Nat.ltb_lt in E.
    pose proof (iteration_items URL_href h i st Hoff) as Hit.
    destruct (iteration URL_href h i st) as [st' [[]|e]]; [|discriminate].
    simpl in Hit. apply IH. rewrite Hit. lia.
Qed.

Lemma execute_total
  (URL_href : jsstring -> jsstring -> option jsstring) (h : Host) :
  continueOnFail h = false ->
  execute URL_href (length (inputItems h)) h <> OutOfFuel.
Proof.
  intros Hoff. apply item_loop_total; [exact Hoff|]. simpl. lia.
Qed.

(** ** Cache busting and the caller's URL (C10) *)

Lemma appendTimestampToUrl_separator (url : jsstring) (now : Z) :
  (In QUESTION_MARK url ->
     appendTimestampToUrl url now = url ++ js "&" ++ js "_=" ++ Z_to_jsstring now)
  /\ (~ In QUESTION_MARK url ->
     appendTimestampToUrl url now = url ++ js "?" ++ js "_=" ++ Z_to_jsstring now).
Proof.
  unfold appendTimestampToUrl.
  destruct (includes_unit url QUESTION_MARK) eqn:E; split; intros H;
    try reflexivity.
  - apply includes_unit_In in E. contradiction.
  - apply includes_unit_In in H. congruence.
Qed.

(** C10. An item that reaches one of the three branches makes one
    [run] call, on the single request [url + sep + "_=" + Date.now()]
    built from its own [url] parameter, where [sep] is ["&"] when [url]
    holds a [?] and ["?"] otherwise.  The records the item adds are one
    per handled page for text and markup, and the one links record when
    a links run resolves; each has as [data.url] that same [url]
    parameter as the caller gave it, whatever address the handled page
    was requested at. *)
Theorem C10_cache_busted_request_original_url
  (URL_href : jsstring -> jsstring -> option jsstring)
  (h : Host) (i : nat) (st : Heap) (c : code_unit) (u operation : jsstring) (d : Z) :
  getNodeParameter_url h i = Normal (c :: u) ->
  getNodeParameter_operation h i = Normal operation ->
  (operation = js "extractLinks" -> getNodeParameter_maxDepth h i = Normal d) ->
  operation = js "extractLinks" \/ operation = js "extractText"
    \/ operation = js "extractHtml" ->
  let url := c :: u in
  let sep := if includes_unit url QUESTION_MARK then js "&" else js "?" in
  let request := url ++ sep ++ js "_=" ++ Z_to_jsstring (Date_now h i) in
  let report := crawler_run h i (options_for operation d) [request] in
  let after := fst (fst (tryBlock URL_href h i st)) in
  trace after = trace st ++ [EvRun i (options_for operation d) [request]]
  /\ (In QUESTION_MARK url -> sep = js "&")
  /\ (~ In QUESTION_MARK url -> sep = js "?")
  /\ exists added,
       returnData after = returnData st ++ added
       /\ Forall (fun r => member2 (js "data") (js "url") (json r) = Some (JString url))
            added
       /\ (operation = js "extractText" ->
           added = map (textRequestHandler url) (handled report))
       /\ (operation = js "extractHtml" ->
           added = map (htmlRequestHandler url) (handled report))
       /\ (operation = js "extractLinks" ->
           match rejected report with
           | None => exists links, added = [links_record url links]
           | Some _ => added = []
           end).
Proof.
  intros Hurl Hop Hd Hcase url sep request report after.
  assert (Hrequest : appendTimestampToUrl url (Date_now h i) = request) by reflexivity.
  split; [|split; [|split]].
  - destruct (tryBlock_crawl URL_href h i st c u operation d Hurl Hop Hd Hcase)
      as (added & Htry & _).
    subst after. rewrite Htry. reflexivity.
  - intros Hin. subst sep. apply includes_unit_In in Hin. now rewrite Hin.
  - intros Hnot. subst sep.
    destruct (includes_unit url QUESTION_MARK) eqn:E; [|reflexivity].
    apply includes_unit_In in E. contradiction.
  - subst after. unfold tryBlock. rewrite Hurl, Hop.
    destruct Hcase as [-> | [-> | ->]]; simpl jsstring_eqb; cbv iota.
    + unfold extractLinks_branch. rewrite (Hd eq_refl).
      change (appendTimestampToUrl (c :: u) (Date_now h i)) with request.
      change (crawler_run h i (linksCrawlerOptions d) [request]) with report.
      destruct (rejected report) as [e|].
      * exists []. simpl. rewrite app_nil_r.
        repeat split; try discriminate. constructor.
      * eexists [_]. simpl. repeat split; try discriminate.
        -- constructor; [reflexivity | constructor].
        -- intros _. eexists. reflexivity.
    + unfold singlePage_branch.
      change (appendTimestampToUrl (c :: u) (Date_now h i)) with request.
      change (crawler_run h i singlePageCrawlerOptions [request]) with report.
      rewrite run_pushing_spec.
      exists (map (textRequestHandler url) (handled report)).
      repeat split; try discriminate.
      * destruct (rejected report); reflexivity.
      * apply Forall_forall. intros r Hr.
        apply in_map_iff in Hr as (ctx & <- & _). reflexivity.
    + unfold singlePage_branch.
      change (appendTimestampToUrl (c :: u) (Date_now h i)) with request.
      change (crawler_run h i singlePageCrawlerOptions [request]) with report.
      rewrite run_pushing_spec.
      exists (map (htmlRequestHandler url) (handled report)).
      repeat split; try discriminate.
      * destruct (rejected report); reflexivity.
      * apply Forall_forall. intros r Hr.
        apply in_map_iff in Hr as (ctx & <- & _). reflexivity.
Qed.

(** A text item whose page was served from another address after a
    redirect: the request carries the parameter after [&], the record
    the caller's URL. *)
Lemma C10_cache_busted_request_original_url_witness :
  let host :=
    static_host (js "https://x.test/p?q=1") (js "extractText") 1 false
      {| handled := [{| request_url := js "https://cdn.x.test/moved";
                        anchor_hrefs := [];
                        body_text := js "moved";
                        body := js "moved" |}];
         rejected := None |} in
  trace (fst (fst (tryBlock URL_href_covered host 0 (initial_heap host))))
    = [EvRun 0 singlePageCrawlerOptions [js "https://x.test/p?q=1&_=1700000000000"]]
  /\ returnData (fst (fst (tryBlock URL_href_covered host 0 (initial_heap host))))
     = [json_item (success_json (js "Text extraction finished")
          [ (js "url", JString (js "https://x.test/p?q=1"));
            (js "text", JString (js "moved")) ])].
Proof.
  intros host.
  destruct (C10_cache_busted_request_original_url URL_href_covered host 0
              (initial_heap host) 104%N (js "ttps://x.test/p?q=1")
              (js "extractText") 1%Z
              eq_refl eq_refl (fun _ => eq_refl) (or_intror (or_introl eq_refl)))
    as (Htrace & _ & _ & added & Hret & _ & Htext & _).
  rewrite (Htext eq_refl) in Hret.
  split; [exact Htrace | exact Hret].
Defined.

(** ** Continue-on-failure (C2) *)

(** Whatever the host does, a record [execute] returns is one of the
    node's success records: none carries an [error]. *)
Lemma returned_records_carry_no_error
  (URL_href : jsstring -> jsstring -> option jsstring)
  (fuel : nat) (h : Host)
  (out : list (list INodeExecutionData)) (calls : list Event) :
  execute URL_href fuel h = Returned out calls ->
  Forall (fun r => error r = None) (concat out).
Proof.
  intros Hexec. pose proof (execute_invariant URL_href h fuel) as Hinv.
  rewrite Hexec in Hinv.
  eapply Forall_impl; [|exact Hinv]. now intros r [_ Hr].
Qed.

(** With continue-on-failure off, a failing round ends the loop with
    the error, annotated with the item index. *)
Lemma failure_aborts_batch
  (URL_href : jsstring -> jsstring -> option jsstring)
  (h : Host) (fuel i : nat) (st st1 : Heap) (crawler : CrawlerVar) (e : JsError) :
  continueOnFail h = false ->
  i < length (items st) ->
  tryBlock URL_href h i st = (st1, crawler, Throw e) ->
  exists e',
    item_loop URL_href (S fuel) h i st
      = Raised e' (trace (finallyBlock h i crawler st1))
    /\ message e' = rethrown_message h i e
    /\ context e' = Some {| itemIndex := Some i |}.
Proof.
  intros Hoff Hlt Htry.
  destruct (catchBlock_rethrows h i e st1 Hoff) as (e' & Hcatch & Hmsg & Hctx).
  exists e'. repeat split; try assumption.
  simpl. apply Nat.ltb_lt in Hlt. rewrite Hlt.
  unfold iteration. rewrite Htry, Hcatch. reflexivity.
Qed.

(** With continue-on-failure on, the [catch] block appends the annotated
    record to [items], the array the loop bound reads, and leaves
    [returnData] as it was. *)
Lemma catchBlock_annotates_items (h : Host) (i : nat) (e : JsError) (st : Heap)
  (first : INodeExecutionData) (rest : list INodeExecutionData) :
  continueOnFail h = true ->
  getInputData h st i = Normal (Some (first :: rest)) ->
  catchBlock h i e st =
    ({| items := items st ++
                 [{| json := json first; error := Some e; pairedItem := Some i |}];
        returnData := returnData st;
        trace := trace st |}, Normal tt).
Proof.
  intros Hon Hin. unfold catchBlock. now rewrite Hon, Hin.
Qed.

(** C2, at the failing input: one input item, the URL left empty,
    continue-on-failure on.  The round of item 0 puts the annotated
    record on the [items] array, not on [returnData]; the loop bound
    grows with it, the extra round fails the same way, its [catch]
    block finds no input 1 to read, and [execute] raises instead of
    returning the annotated record. *)
Theorem C2_annotated_record_not_returned :
  let host := static_host [] (js "extractText") 1 true one_page in
  let item0 := json_item [(js "id", JNumber 7)] in
  let annotated :=
    {| json := json item0;
       error := Some (NodeOperationError (js "URL is required") 0);
       pairedItem := Some 0 |} in
  inputItems host = [item0]
  /\ iteration URL_href_covered host 0 (initial_heap host)
      = ({| items := [item0; annotated]; returnData := []; trace := [] |}, Normal tt)
  /\ (forall fuel,
        execute URL_href_covered (S (S fuel)) host = Raised TypeError_undefined []).
Proof.
  intros host item0 annotated. repeat apply conj.
  - reflexivity.
  - reflexivity.
  - intros fuel. reflexivity.
Qed.

(* ================================================================== *)
(** * Further properties of the node *)

(** ** [appendTimestampToUrl] *)

Lemma js_inj (a b : string) : js a = js b -> a = b.
Proof.
  unfold js. intros H.
  rewrite <- (string_of_list_ascii_of_string a), <- (string_of_list_ascii_of_string b).
  f_equal. revert H.
  generalize (list_ascii_of_string a) (list_ascii_of_string b).
  induction l as [|x l IH]; intros [|y l']; simpl; try discriminate; [reflexivity|].
  intros [= Hxy Hl]. f_equal; [|now apply IH].
  rewrite <- (ascii_N_embedding x), <- (ascii_N_embedding y). now f_equal.
Qed.

Lemma Z_to_jsstring_inj (a b : Z) : Z_to_jsstring a = Z_to_jsstring b -> a = b.
Proof.
  unfold Z_to_jsstring. intros H. apply js_inj in H.
  apply DecimalZ.to_int_inj.
  assert (Hwf : forall z, Z.to_int z <> Decimal.Pos Decimal.Nil
                          /\ Z.to_int z <> Decimal.Neg Decimal.Nil).
  { intros [|p|p]; simpl; split; try discriminate;
      intros [= E]; exact (DecimalPos.Unsigned.to_uint_nonnil p E). }
  assert (Hparse : forall z,
            NilZero.int_of_string (NilZero.string_of_int (Z.to_int z))
            = Some (Z.to_int z)).
  { intros z. apply NilZero.isi; apply Hwf. }
  pose proof (Hparse a) as Ha. rewrite H, Hparse in Ha. now injection Ha.
Qed.

(** X1. The request built for a seed always holds a [?], starts with
    the seed unchanged, and a second pass over an already busted seed
    joins its parameter with [&]. *)
Theorem appendTimestampToUrl_shape (url : jsstring) (t1 t2 : Z) :
  In QUESTION_MARK (appendTimestampToUrl url t1)
  /\ firstn (length url) (appendTimestampToUrl url t1) = url
  /\ length url + 4 <= length (appendTimestampToUrl url t1)
  /\ appendTimestampToUrl (appendTimestampToUrl url t1) t2
     = appendTimestampToUrl url t1 ++ js "&" ++ js "_=" ++ Z_to_jsstring t2.
Proof.
  assert (Hq : In QUESTION_MARK (appendTimestampToUrl url t1)).
  { unfold appendTimestampToUrl.
    destruct (includes_unit url QUESTION_MARK) eqn:E.
    - apply includes_unit_In in E. apply in_or_app. now left.
    - apply in_or_app. right. now left. }
  assert (Hdigits : 1 <= length (Z_to_jsstring t1)).
  { destruct (Z_to_jsstring t1) as [|c r] eqn:E; [|simpl; lia].
    exfalso. change (@nil code_unit) with (js "") in E.
    unfold Z_to_jsstring in E. apply js_inj in E.
    destruct t1 as [|p|p]; simpl in E; try discriminate E.
    unfold NilZero.string_of_uint in E.
    destruct (Pos.to_uint p); discriminate E. }
  repeat apply conj.
  - exact Hq.
  - unfold appendTimestampToUrl. rewrite firstn_app, Nat.sub_diag, firstn_all.
    simpl. apply app_nil_r.
  - unfold appendTimestampToUrl. rewrite !length_app.
    destruct (includes_unit url QUESTION_MARK); simpl; lia.
  - apply appendTimestampToUrl_separator. exact Hq.
Qed.

(** X2. For a fixed seed, two different clock readings give two
    different requests; for a fixed clock reading, two different seeds
    give two different requests. *)
Theorem appendTimestampToUrl_injective (url url' : jsstring) (t t' : Z) :
  (t <> t' -> appendTimestampToUrl url t <> appendTimestampToUrl url t')
  /\ (url <> url' -> appendTimestampToUrl url t <> appendTimestampToUrl url' t).
Proof.
  split; intros Hne H; apply Hne; clear Hne.
  - unfold appendTimestampToUrl in H.
    apply app_inv_head in H. apply app_inv_head in H. apply app_inv_head in H.
    now apply Z_to_jsstring_inj.
  - unfold appendTimestampToUrl in H.
    assert (Hlen : length url = length url').
    { apply (f_equal (@length code_unit)) in H. rewrite !length_app in H.
      destruct (includes_unit url QUESTION_MARK), (includes_unit url' QUESTION_MARK);
        simpl in H; lia. }
    apply (f_equal (firstn (length url))) in H.
    rewrite firstn_app, Nat.sub_diag, firstn_all, firstn_O, app_nil_r in H.
    rewrite Hlen, firstn_app, Nat.sub_diag, firstn_all, firstn_O, app_nil_r in H.
    exact H.
Qed.

Lemma appendTimestampToUrl_injective_witness :
  appendTimestampToUrl seed 1700000000000 <> appendTimestampToUrl seed 1700000000001
  /\ appendTimestampToUrl seed 1700000000000
     <> appendTimestampToUrl (js "https://x.test/?") 1700000000000.
Proof.
  split.
  - apply (appendTimestampToUrl_injective seed seed 1700000000000 1700000000001).
    discriminate.
  - apply (appendTimestampToUrl_injective seed (js "https://x.test/?")
             1700000000000 1700000000000).
    vm_compute; discriminate.
Defined.

(** ** Truncation, trimming and the text record *)

(** X3. Cutting with the marker leaves the first [cap] units as they
    were, gives a string of exactly [cap + 3] units ending in the marker
    when the input was longer than [cap], and applying it again to its
    own result changes nothing. *)
Theorem truncateWithMarker_stable (cap : nat) (s : jsstring) :
  firstn cap (truncateWithMarker cap s) = firstn cap s
  /\ length (truncateWithMarker cap s)
     = (if cap <? length s then cap + 3 else length s)
  /\ skipn cap (truncateWithMarker cap s)
     = (if cap <? length s then js "..." else [])
  /\ truncateWithMarker cap (truncateWithMarker cap s) = truncateWithMarker cap s.
Proof.
  unfold truncateWithMarker, substring0.
  destruct (cap <? length s) eqn:E.
  - apply Nat.ltb_lt in E.
    assert (Hcut : length (firstn cap s) = cap) by (rewrite length_firstn; lia).
    assert (Hfirst : firstn cap (firstn cap s ++ MARKER) = firstn cap s).
    { rewrite firstn_app, Hcut, Nat.sub_diag, firstn_O, app_nil_r.
      rewrite firstn_firstn. f_equal. lia. }
    repeat apply conj.
    + exact Hfirst.
    + rewrite length_app, Hcut. reflexivity.
    + rewrite skipn_app, Hcut, Nat.sub_diag.
      rewrite (skipn_all2 (firstn cap s)) by lia. reflexivity.
    + assert (Hlong : (cap <? length (firstn cap s ++ MARKER)) = true).
      { apply Nat.ltb_lt. rewrite length_app, Hcut. simpl. lia. }
      rewrite Hlong, Hfirst. reflexivity.
  - pose proof E as E'. apply Nat.ltb_ge in E'. repeat apply conj.
    + reflexivity.
    + reflexivity.
    + apply skipn_all2. exact E'.
    + now rewrite E.
Qed.

Lemma trimStart_whitespace (s : jsstring) :
  trimStart s = [] <-> forallb is_js_whitespace s = true.
Proof.
  induction s as [|c s IH]; simpl.
  - tauto.
  - destruct (is_js_whitespace c); simpl; [exact IH|].
    split; discriminate.
Qed.

Lemma trimEnd_nil (s : jsstring) :
  trimEnd s = [] <-> forallb is_js_whitespace s = true.
Proof.
  induction s as [|c s IH]; simpl.
  - tauto.
  - destruct (trimEnd s) as [|x kept].
    + destruct (is_js_whitespace c); simpl.
      * split; intros _; [apply IH|]; reflexivity.
      * split; discriminate.
    + split; [discriminate|]. intros H.
      apply andb_true_iff in H as [_ H]. apply IH in H. discriminate.
Qed.

Lemma trimEnd_fixed (t : jsstring) (c : code_unit) :
  is_js_whitespace c = false -> trimEnd (t ++ [c]) = t ++ [c].
Proof.
  intros Hc. induction t as [|x t IH]; simpl.
  - now rewrite Hc.
  - rewrite IH. destruct (t ++ [c]) eqn:E; [|reflexivity].
    destruct t; discriminate.
Qed.

Lemma trim_idempotent (s : jsstring) : trim (trim s) = trim s.
Proof.
  destruct (trim s) as [|c t] eqn:E; [reflexivity|].
  pose proof (trim_head s t c E) as Hhead.
  unfold trim at 1. simpl trimStart. rewrite Hhead.
  destruct (exists_last (l := c :: t)) as (t' & z & Hlast); [discriminate|].
  rewrite Hlast. apply trimEnd_fixed.
  apply (trim_last s t' z). now rewrite E.
Qed.

(** X4. The text stored for a page is empty exactly when the body text
    consists of whitespace only (or is empty); the handler then still
    pushes its success record, with [text: ""].  Trimming a trimmed text
    again changes nothing. *)
Theorem extracted_text_empty_iff (originalUrl : jsstring) (ctx : CrawlingContext) :
  (extracted_text ctx = [] <-> forallb is_js_whitespace (body_text ctx) = true)
  /\ (forallb is_js_whitespace (body_text ctx) = true ->
      textRequestHandler originalUrl ctx
      = json_item (success_json (js "Text extraction finished")
          [ (js "url", JString originalUrl); (js "text", JString []) ]))
  /\ trim (trim (body_text ctx)) = trim (body_text ctx).
Proof.
  assert (Hiff : extracted_text ctx = []
                 <-> forallb is_js_whitespace (body_text ctx) = true).
  { unfold extracted_text, truncateWithMarker, substring0. split.
    - intros H.
      assert (Htrim : trim (body_text ctx) = []).
      { destruct (TEXT_CAP <? length (trim (body_text ctx))); [|exact H].
        apply app_eq_nil in H as [_ H]. discriminate H. }
      destruct (trim_spec (body_text ctx)) as (l & r & E & Hl & Hr).
      rewrite Htrim in E. rewrite E. simpl. rewrite forallb_app. now rewrite Hl, Hr.
    - intros H. apply trimStart_whitespace in H.
      unfold trim. rewrite H. reflexivity. }
  repeat apply conj.
  - apply Hiff.
  - apply Hiff.
  - intros H. unfold textRequestHandler. apply Hiff in H. now rewrite H.
  - apply trim_idempotent.
Qed.

(** A page whose body holds a tab, a no-break space and a line feed. *)
Lemma extracted_text_empty_iff_witness :
  textRequestHandler seed
    {| request_url := seed; anchor_hrefs := [];
       body_text := [9%N; 160%N; 10%N]; body := js "<body>&nbsp;</body>" |}
  = json_item (success_json (js "Text extraction finished")
      [ (js "url", JString seed); (js "text", JString []) ]).
Proof.
  apply (extracted_text_empty_iff seed
           {| request_url := seed; anchor_hrefs := [];
              body_text := [9%N; 160%N; 10%N]; body := js "<body>&nbsp;</body>" |}).
  reflexivity.
Defined.

(** ** Deduplication and link order *)

Lemma set_add_all_fresh (xs seen : list jsstring) :
  NoDup (seen ++ xs) -> set_add_all seen xs = seen ++ xs.
Proof.
  revert seen. induction xs as [|x xs IH]; intros seen Hnd; simpl.
  - now rewrite app_nil_r.
  - assert (Hx : set_has seen x = false).
    { destruct (set_has seen x) eqn:E; [|reflexivity].
      apply set_has_In in E. apply NoDup_remove_2 in Hnd.
      exfalso. apply Hnd. apply in_or_app. now left. }
    rewrite Hx. rewrite IH.
    + now rewrite <- app_assoc.
    + now rewrite <- app_assoc.
Qed.

Lemma set_add_all_extends (xs seen : list jsstring) :
  exists fresh, set_add_all seen xs = seen ++ fresh
                /\ length fresh <= length xs.
Proof.
  revert seen. induction xs as [|x xs IH]; intros seen; simpl.
  - exists []. split; [now rewrite app_nil_r | reflexivity].
  - destruct (set_has seen x).
    + destruct (IH seen) as (fresh & E & Hlen). exists fresh. split; [exact E | lia].
    + destruct (IH (seen ++ [x])) as (fresh & E & Hlen).
      exists (x :: fresh). split; [now rewrite E, <- app_assoc | simpl; lia].
Qed.

(** X5. [[...new Set(xs)]] returns a list without duplicates as it is,
    never returns more entries than it was given, keeps the first entry
    first, and applied to its own result changes nothing. *)
Theorem spread_new_Set_order (xs : list jsstring) :
  (NoDup xs -> spread_new_Set xs = xs)
  /\ length (spread_new_Set xs) <= length xs
  /\ hd_error (spread_new_Set xs) = hd_error xs
  /\ spread_new_Set (spread_new_Set xs) = spread_new_Set xs.
Proof.
  assert (Hfixed : forall ys, NoDup ys -> spread_new_Set ys = ys).
  { intros ys Hnd. unfold spread_new_Set. now rewrite set_add_all_fresh. }
  repeat apply conj.
  - apply Hfixed.
  - unfold spread_new_Set. destruct (set_add_all_extends xs []) as (fresh & -> & H).
    exact H.
  - unfold spread_new_Set. destruct xs as [|x xs]; [reflexivity|]. simpl.
    destruct (set_add_all_extends xs [x]) as (fresh & -> & _). reflexivity.
  - apply Hfixed. apply spread_new_Set_NoDup.
Qed.

(** Two distinct links stay as they are. *)
Lemma spread_new_Set_order_witness :
  spread_new_Set [js "https://x.test/a"; js "https://x.test/b"]
  = [js "https://x.test/a"; js "https://x.test/b"].
Proof.
  apply (proj1 (spread_new_Set_order [js "https://x.test/a"; js "https://x.test/b"])).
  apply NoDup_cons.
  - simpl. intros [E | []]. discriminate E.
  - apply NoDup_cons; [intros [] | apply NoDup_nil].
Defined.

Lemma push_link_fold_app
  (URL_href : jsstring -> jsstring -> option jsstring)
  (base : jsstring) (hrefs acc : list jsstring) :
  fold_left (push_link URL_href base) hrefs acc
  = acc ++ fold_left (push_link URL_href base) hrefs [].
Proof.
  revert acc. induction hrefs as [|x hrefs IH]; intros acc; simpl.
  - now rewrite app_nil_r.
  - rewrite (IH (push_link URL_href base acc x)), (IH (push_link URL_href base [] x)).
    unfold push_link. destruct x as [|c x].
    + reflexivity.
    + destruct (URL_href (c :: x) base); simpl.
      * now rewrite <- app_assoc.
      * reflexivity.
Qed.

(** X6. The links of a page come in document order: a page whose
    anchors are [front] followed by [back] yields the links of [front]
    followed by the links of [back]; and a page never yields more links
    than it has anchors. *)
Theorem collect_links_document_order
  (URL_href : jsstring -> jsstring -> option jsstring)
  (url : jsstring) (front back : list jsstring) (text markup : jsstring) :
  let page hrefs :=
    {| request_url := url; anchor_hrefs := hrefs;
       body_text := text; body := markup |} in
  collect_links URL_href (page (front ++ back))
  = collect_links URL_href (page front) ++ collect_links URL_href (page back)
  /\ length (collect_links URL_href (page front)) <= length front.
Proof.
  intros page. unfold collect_links. simpl. split.
  - rewrite fold_left_app. apply push_link_fold_app.
  - clear back. induction front as [|x front IH]; simpl; [reflexivity|].
    rewrite push_link_fold_app. rewrite length_app.
    assert (Hone : length (push_link URL_href url [] x) <= 1).
    { unfold push_link. destruct x; [simpl; lia|].
      destruct (URL_href _ url); simpl; lia. }
    lia.
Qed.

(** ** Rounds do not read earlier results *)

Section Frame.

Variable URL_href : jsstring -> jsstring -> option jsstring.
Variable h : Host.

Lemma heap_after_fresh (st : Heap) : heap_after st (fresh_heap (items st)) = st.
Proof.
  unfold heap_after, fresh_heap. simpl. rewrite !app_nil_r. now destruct st.
Qed.

Lemma emit_after (e : Event) (st delta : Heap) :
  emit e (heap_after st delta) = heap_after st (emit e delta).
Proof. unfold emit, heap_after. simpl. now rewrite app_assoc. Qed.

Lemma push_returnData_after (x : INodeExecutionData) (st delta : Heap) :
  push_returnData x (heap_after st delta) = heap_after st (push_returnData x delta).
Proof. unfold push_returnData, heap_after. simpl. now rewrite app_assoc. Qed.

Lemma push_items_after (x : INodeExecutionData) (st delta : Heap) :
  push_items x (heap_after st delta) = heap_after st (push_items x delta).
Proof. reflexivity. Qed.

Lemma run_pushing_after handler pages (st delta : Heap) :
  run_pushing handler pages (heap_after st delta)
  = heap_after st (run_pushing handler pages delta).
Proof.
  rewrite !run_pushing_spec. unfold heap_after. simpl. now rewrite app_assoc.
Qed.

Lemma tryBlock_after (i : nat) (st delta : Heap) :
  tryBlock URL_href h i (heap_after st delta)
  = let '(delta', crawler, c) := tryBlock URL_href h i delta in
    (heap_after st delta', crawler, c).
Proof.
  unfold tryBlock.
  destruct (getNodeParameter_url h i) as [url|e]; [|reflexivity].
  destruct (getNodeParameter_operation h i) as [operation|e]; [|reflexivity].
  destruct url as [|c u]; [reflexivity|].
  destruct (jsstring_eqb operation (js "extractLinks")).
  { unfold extractLinks_branch.
    destruct (getNodeParameter_maxDepth h i) as [d|e]; [|reflexivity].
    rewrite emit_after.
    destruct (rejected _); [reflexivity|].
    now rewrite push_returnData_after. }
  destruct (jsstring_eqb operation (js "extractText")).
  { unfold singlePage_branch. rewrite emit_after, run_pushing_after.
    destruct (rejected _); reflexivity. }
  destruct (jsstring_eqb operation (js "extractHtml")).
  { unfold singlePage_branch. rewrite emit_after, run_pushing_after.
    destruct (rejected _); reflexivity. }
  reflexivity.
Qed.

Lemma catchBlock_after (i : nat) (e : JsError) (st delta : Heap) :
  catchBlock h i e (heap_after st delta)
  = let '(delta', c) := catchBlock h i e delta in (heap_after st delta', c).
Proof.
  unfold catchBlock. destruct (continueOnFail h).
  - assert (Hin : getInputData h (heap_after st delta) i = getInputData h delta i).
    { destruct i; reflexivity. }
    rewrite Hin.
    destruct (getInputData h delta i) as [[[|first rest]|]|host_error]; reflexivity.
  - destruct (context e); reflexivity.
Qed.

Lemma finallyBlock_after (i : nat) (crawler : CrawlerVar) (st delta : Heap) :
  finallyBlock h i crawler (heap_after st delta)
  = heap_after st (finallyBlock h i crawler delta).
Proof.
  unfold finallyBlock. destruct crawler; [|reflexivity].
  rewrite emit_after. destruct (crawler_teardown h i); reflexivity.
Qed.

Lemma iteration_after (i : nat) (st delta : Heap) :
  iteration URL_href h i (heap_after st delta)
  = let '(delta', c) := iteration URL_href h i delta in (heap_after st delta', c).
Proof.
  unfold iteration. rewrite tryBlock_after.
  destruct (tryBlock URL_href h i delta) as [[delta1 crawler] c].
  destruct c as [[]|e].
  - now rewrite finallyBlock_after.
  - rewrite catchBlock_after.
    destruct (catchBlock h i e delta1) as [delta2 c2].
    now rewrite finallyBlock_after.
Qed.

Lemma item_loop_after (fuel i : nat) (st delta : Heap) :
  item_loop URL_href fuel h i (heap_after st delta)
  = match item_loop URL_href fuel h i delta with
    | Returned out calls =>
        Returned (map (app (returnData st)) out) (trace st ++ calls)
    | Raised e calls => Raised e (trace st ++ calls)
    | OutOfFuel => OutOfFuel
    end.
Proof.
  revert i delta. induction fuel as [|fuel IH]; intros i delta; simpl.
  - destruct (i <? length (items delta)); reflexivity.
  - destruct (i <? length (items delta)); [|reflexivity].
    rewrite iteration_after.
    destruct (iteration URL_href h i delta) as [delta' [[]|e]].
    + apply IH.
    + reflexivity.
Qed.

End Frame.

(** X7. A round does not read the records and calls of earlier rounds:
    run on any heap, it appends to [returnData] and to the trace exactly
    what it produces on a heap holding the same [items] and nothing
    else, and completes the same way; earlier records are neither
    changed nor dropped. *)
Theorem iteration_frame
  (URL_href : jsstring -> jsstring -> option jsstring)
  (h : Host) (i : nat) (st : Heap) :
  let alone := iteration URL_href h i (fresh_heap (items st)) in
  iteration URL_href h i st
  = ({| items := items (fst alone);
        returnData := returnData st ++ returnData (fst alone);
        trace := trace st ++ trace (fst alone) |},
     snd alone).
Proof.
  intros alone. subst alone.
  rewrite <- (heap_after_fresh st) at 1. rewrite iteration_after.
  destruct (iteration URL_href h i (fresh_heap (items st))) as [delta' c].
  reflexivity.
Qed.

(** ** What one round can do *)

Section RoundCases.

Variable URL_href : jsstring -> jsstring -> option jsstring.
Variable h : Host.

Lemma handler_records_built (url : jsstring) (pages : list CrawlingContext) :
  Forall built_by_node (map (textRequestHandler url) pages)
  /\ Forall built_by_node (map (htmlRequestHandler url) pages).
Proof.
  split; apply Forall_forall; intros r Hr;
    apply in_map_iff in Hr as (ctx & <- & _).
  - right. left. now exists url, ctx.
  - right. right. now exists url, ctx.
Qed.

(** The [try] block either leaves the heap alone and no crawler behind,
    or makes one [run] call, adds records its branches built, and
    leaves the crawler behind exactly when it throws. *)
Lemma tryBlock_cases (i : nat) (st : Heap) :
  exists added calls crawler c,
    tryBlock URL_href h i st
    = ({| items := items st;
          returnData := returnData st ++ added;
          trace := trace st ++ calls |}, crawler, c)
    /\ Forall built_by_node added
    /\ ((calls = [] /\ crawler = None /\ added = [])
        \/ exists opts requests,
             calls = [EvRun i opts requests]
             /\ crawler = match c with Throw _ => Some opts | Normal _ => None end).
Proof.
  assert (Hidle : forall c : Completion unit,
    exists added calls crawler c',
      (st, @None CrawlerOptions, c)
      = ({| items := items st;
            returnData := returnData st ++ added;
            trace := trace st ++ calls |}, crawler, c')
      /\ Forall built_by_node added
      /\ ((calls = [] /\ crawler = None /\ added = [])
          \/ exists opts requests,
               calls = [EvRun i opts requests]
               /\ crawler = match c' with Throw _ => Some opts | Normal _ => None end)).
  { intros c. exists [], [], None, c. rewrite !app_nil_r.
    repeat split; [now destruct st | constructor | now left]. }
  unfold tryBlock.
  destruct (getNodeParameter_url h i) as [url|e]; [|apply Hidle].
  destruct (getNodeParameter_operation h i) as [operation|e]; [|apply Hidle].
  destruct url as [|c u]; [apply Hidle|].
  destruct (jsstring_eqb operation (js "extractLinks")).
  { unfold extractLinks_branch.
    destruct (getNodeParameter_maxDepth h i) as [d|e]; [|apply Hidle].
    destruct (rejected _) as [e|].
    - exists [], [EvRun i (linksCrawlerOptions d)
                    [appendTimestampToUrl (c :: u) (Date_now h i)]],
             (Some (linksCrawlerOptions d)), (Throw e).
      rewrite app_nil_r. repeat split; [constructor|].
      right. now eexists _, _.
    - eexists [_], [EvRun i (linksCrawlerOptions d)
                      [appendTimestampToUrl (c :: u) (Date_now h i)]],
              None, (Normal tt).
      repeat split.
      + constructor; [|constructor]. left. eexists _, _. split; [reflexivity|].
        apply spread_new_Set_NoDup.
      + right. now eexists _, _. }
  destruct (jsstring_eqb operation (js "extractText")).
  { unfold singlePage_branch. rewrite run_pushing_spec. simpl.
    exists (map (textRequestHandler (c :: u))
              (handled (crawler_run h i singlePageCrawlerOptions
                          [appendTimestampToUrl (c :: u) (Date_now h i)]))),
           [EvRun i singlePageCrawlerOptions
              [appendTimestampToUrl (c :: u) (Date_now h i)]].
    destruct (rejected _) as [e|].
    - exists (Some singlePageCrawlerOptions), (Throw e). repeat split.
      + apply handler_records_built.
      + right. now eexists _, _.
    - exists None, (Normal tt). repeat split.
      + apply handler_records_built.
      + right. now eexists _, _. }
  destruct (jsstring_eqb operation (js "extractHtml")).
  { unfold singlePage_branch. rewrite run_pushing_spec. simpl.
    exists (map (htmlRequestHandler (c :: u))
              (handled (crawler_run h i singlePageCrawlerOptions
                          [appendTimestampToUrl (c :: u) (Date_now h i)]))),
           [EvRun i singlePageCrawlerOptions
              [appendTimestampToUrl (c :: u) (Date_now h i)]].
    destruct (rejected _) as [e|].
    - exists (Some singlePageCrawlerOptions), (Throw e). repeat split.
      + apply handler_records_built.
      + right. now eexists _, _.
    - exists None, (Normal tt). repeat split.
      + apply handler_records_built.
      + right. now eexists _, _. }
  apply Hidle.
Qed.

(** One round: what it appends, what it calls, and how it can end. *)
Lemma iteration_cases (i : nat) (st : Heap) :
  exists items' added calls c,
    iteration URL_href h i st
    = ({| items := items'; returnData := returnData st ++ added;
          trace := trace st ++ calls |}, c)
    /\ Forall built_by_node added
    /\ (calls = []
        \/ exists b, call_item b = i /\ calls = item_events b
                     /\ (call_teardown b = true -> continueOnFail h = false ->
                         exists e, c = Throw e))
    /\ (continueOnFail h = false ->
        items' = items st
        /\ forall e, c = Throw e -> context e = Some {| itemIndex := Some i |})
    /\ (continueOnFail h = true -> i < length (items st) ->
        forall e, c = Throw e -> 1 <= i /\ input_read_failure h i e)
    /\ length (items st) <= length items'.
Proof.
  destruct (tryBlock_cases i st) as (added & calls & crawler & c & Htry & Hbuilt & Hcalls).
  unfold iteration. rewrite Htry. clear Htry.
  destruct c as [[]|e].
  - (* the try block completes *)
    assert (Hnone : crawler = None).
    { destruct Hcalls as [(_ & H & _) | (opts & requests & _ & H)]; exact H. }
    subst crawler. simpl.
    exists (items st), added, calls, (Normal tt).
    split; [reflexivity|]. split; [exact Hbuilt|].
    split; [|split; [|split]].
    + destruct Hcalls as [(H & _) | (opts & requests & H & _)]; [now left|].
      right. exists {| call_item := i; call_options := opts;
                       call_requests := requests; call_teardown := false |}.
      repeat split; [exact H | discriminate].
    + intros _. split; [reflexivity | discriminate].
    + discriminate.
    + reflexivity.
  - (* the try block throws *)
    set (st1 := {| items := items st; returnData := returnData st ++ added;
                   trace := trace st ++ calls |}).
    assert (Hfinal : forall st2,
      returnData st2 = returnData st1 -> trace st2 = trace st1 ->
      finallyBlock h i crawler st2
      = {| items := items st2; returnData := returnData st ++ added;
           trace := trace st ++ calls
                    ++ match crawler with Some _ => [EvTeardown i] | None => [] end |}).
    { intros st2 Hr Ht.
      pose proof (finallyBlock_trace h i crawler st2) as H1.
      pose proof (finallyBlock_returnData h i crawler st2) as H2.
      pose proof (finallyBlock_items h i crawler st2) as H3.
      destruct (finallyBlock h i crawler st2) as [its rd tr]. simpl in *.
      subst its rd tr. rewrite Hr, Ht. now rewrite <- app_assoc. }
    assert (Hshape : calls ++ match crawler with Some _ => [EvTeardown i] | None => [] end = []
        \/ exists b, call_item b = i
             /\ calls ++ match crawler with Some _ => [EvTeardown i] | None => [] end
                = item_events b).
    { destruct Hcalls as [(-> & -> & _) | (opts & requests & -> & ->)]; [now left|].
      right. exists {| call_item := i; call_options := opts;
                       call_requests := requests; call_teardown := true |}.
      split; reflexivity. }
    assert (Hshape' : forall c' : Completion unit,
      (exists e', c' = Throw e') \/ continueOnFail h = true ->
      calls ++ match crawler with Some _ => [EvTeardown i] | None => [] end = []
      \/ exists b, call_item b = i
           /\ calls ++ match crawler with Some _ => [EvTeardown i] | None => [] end
              = item_events b
           /\ (call_teardown b = true -> continueOnFail h = false ->
               exists e', c' = Throw e')).
    { intros c' Hc'. destruct Hshape as [E | (b & Hb & E)]; [now left|].
      right. exists b. repeat split; try assumption.
      intros _ Hoff. destruct Hc' as [Hc' | Hc']; [exact Hc' | congruence]. }
    destruct (continueOnFail h) eqn:Hcof.
    + unfold catchBlock. rewrite Hcof.
      assert (Hread : forall e',
        (getInputData h st1 i = Throw e'
         \/ (e' = TypeError_undefined
             /\ (getInputData h st1 i = Normal None
                 \/ getInputData h st1 i = Normal (Some [])))) ->
        i < length (items st) -> 1 <= i /\ input_read_failure h i e').
      { intros e' Hget Hlt. destruct i as [|i].
        - exfalso. simpl in Hget.
          destruct Hget as [Hget | (_ & [Hget | Hget])]; try discriminate Hget.
          injection Hget as Hget. rewrite Hget in Hlt. simpl in Hlt. lia.
        - split; [lia | exact Hget]. }
      destruct (getInputData h st1 i) as [[[|first rest]|]|host_error] eqn:Hget.
      * exists (items st), added,
          (calls ++ match crawler with Some _ => [EvTeardown i] | None => [] end),
          (Throw TypeError_undefined).
        rewrite (Hfinal st1 eq_refl eq_refl).
        split; [reflexivity|]. split; [exact Hbuilt|].
        split; [apply Hshape'; now right|].
        split; [discriminate|]. split; [|reflexivity].
        intros _ Hlt e' [= <-]. apply Hread; [|exact Hlt]. right. split; auto.
      * exists (items st ++ [{| json := json first; error := Some e;
                                pairedItem := Some i |}]), added,
          (calls ++ match crawler with Some _ => [EvTeardown i] | None => [] end),
          (Normal tt).
        rewrite (Hfinal (push_items _ st1) eq_refl eq_refl).
        split; [reflexivity|]. split; [exact Hbuilt|].
        split; [apply Hshape'; now right|].
        split; [discriminate|]. split; [discriminate|].
        rewrite length_app. simpl. lia.
      * exists (items st), added,
          (calls ++ match crawler with Some _ => [EvTeardown i] | None => [] end),
          (Throw TypeError_undefined).
        rewrite (Hfinal st1 eq_refl eq_refl).
        split; [reflexivity|]. split; [exact Hbuilt|].
        split; [apply Hshape'; now right|].
        split; [discriminate|]. split; [|reflexivity].
        intros _ Hlt e' [= <-]. apply Hread; [|exact Hlt]. right. split; auto.
      * exists (items st), added,
          (calls ++ match crawler with Some _ => [EvTeardown i] | None => [] end),
          (Throw host_error).
        rewrite (Hfinal st1 eq_refl eq_refl).
        split; [reflexivity|]. split; [exact Hbuilt|].
        split; [apply Hshape'; now right|].
        split; [discriminate|]. split; [|reflexivity].
        intros _ Hlt e' [= <-]. apply Hread; [|exact Hlt]. now left.
    + destruct (catchBlock_rethrows h i e st1 Hcof) as (e' & -> & Hmsg & Hctx).
      exists (items st), added,
        (calls ++ match crawler with Some _ => [EvTeardown i] | None => [] end),
        (Throw e').
      rewrite (Hfinal st1 eq_refl eq_refl).
      split; [reflexivity|]. split; [exact Hbuilt|].
      split; [apply Hshape'; left; now exists e'|].
      split; [|split; [discriminate | reflexivity]].
      intros _. split; [reflexivity|]. now intros e'' [= <-].
Qed.

End RoundCases.

(** ** Whole runs: records and calls *)

Lemma extracted_text_bound (ctx : CrawlingContext) :
  (Z.of_nat (length (extracted_text ctx)) <= 50003)%Z.
Proof.
  pose proof (truncateWithMarker_length TEXT_CAP (trim (body_text ctx))) as H.
  pose proof TEXT_CAP_value. unfold extracted_text. lia.
Qed.

Lemma extracted_html_bound (ctx : CrawlingContext) :
  (Z.of_nat (length (extracted_html ctx)) <= 100003)%Z.
Proof.
  pose proof (truncateWithMarker_length HTML_CAP (body ctx)) as H.
  pose proof HTML_CAP_value. unfold extracted_html. lia.
Qed.

Lemma built_within_limits (r : INodeExecutionData) :
  built_by_node r -> record_within_limits r.
Proof.
  intros [(url & links & -> & Hnd) | [(url & ctx & ->) | (url & ctx & ->)]];
    repeat split; intros v Hv; try discriminate Hv.
  - injection Hv as <-. now exists links.
  - injection Hv as <-. exists (extracted_text ctx). split; [reflexivity|].
    apply extracted_text_bound.
  - injection Hv as <-. exists (extracted_html ctx). split; [reflexivity|].
    apply extracted_html_bound.
Qed.

Lemma StronglySorted_snoc (l : list nat) (i : nat) :
  StronglySorted lt l -> Forall (fun x => x < i) l -> StronglySorted lt (l ++ [i]).
Proof.
  induction l as [|x l IH]; intros Hs Hlt; simpl.
  - repeat constructor.
  - apply StronglySorted_inv in Hs as [Hs Hx].
    apply Forall_cons_iff in Hlt as [Hxi Hlt].
    constructor; [now apply IH|].
    apply Forall_app. split; [exact Hx | now repeat constructor].
Qed.

Lemma calls_by_item_step (i : nat) (t calls : list Event) :
  calls_by_item i t ->
  calls = [] \/ (exists b, call_item b = i /\ calls = item_events b) ->
  calls_by_item (S i) (t ++ calls).
Proof.
  intros (blocks & -> & Hs & Hlt) [-> | (b & Hb & ->)].
  - rewrite app_nil_r. exists blocks. repeat split; try assumption.
    eapply Forall_impl; [|exact Hlt]. simpl. lia.
  - exists (blocks ++ [b]). repeat split.
    + rewrite flat_map_app. simpl. now rewrite app_nil_r.
    + rewrite map_app. simpl. rewrite Hb. apply StronglySorted_snoc; [exact Hs|].
      apply Forall_map. exact Hlt.
    + apply Forall_app. split.
      * eapply Forall_impl; [|exact Hlt]. simpl. lia.
      * constructor; [lia | constructor].
Qed.

Lemma teardown_count_app (a b : list Event) :
  teardown_count (a ++ b) = teardown_count a + teardown_count b.
Proof. unfold teardown_count. now rewrite filter_app, length_app. Qed.

Lemma run_count_app (a b : list Event) :
  run_count (a ++ b) = run_count a + run_count b.
Proof. unfold run_count. now rewrite filter_app, length_app. Qed.

Lemma calls_by_item_counts (bound : nat) (calls : list Event) :
  calls_by_item bound calls ->
  teardown_count calls <= run_count calls /\ run_count calls <= bound.
Proof.
  intros (blocks & -> & Hs & Hlt).
  assert (Hcounts : teardown_count (flat_map item_events blocks) <= length blocks
                    /\ run_count (flat_map item_events blocks) = length blocks).
  { clear Hs Hlt. induction blocks as [|b blocks [IH1 IH2]]; simpl; [split; reflexivity|].
    change (EvRun (call_item b) (call_options b) (call_requests b)
            :: (if call_teardown b then [EvTeardown (call_item b)] else [])
               ++ flat_map item_events blocks)
      with (item_events b ++ flat_map item_events blocks).
    rewrite teardown_count_app, run_count_app.
    assert (Hb : teardown_count (item_events b) <= 1 /\ run_count (item_events b) = 1).
    { unfold item_events. destruct (call_teardown b); split; cbv; lia. }
    lia. }
  destruct Hcounts as [Ht Hr]. rewrite Hr. split; [exact Ht|].
  (* strictly increasing indices below the bound: no more blocks than the bound *)
  assert (Hlen : forall l lo, StronglySorted lt l ->
            Forall (fun x => lo <= x < bound) l -> length l <= bound - lo).
  { induction l as [|x l IHl]; intros lo Hsl Hb; simpl; [lia|].
    apply StronglySorted_inv in Hsl as [Hsl Hx].
    apply Forall_cons_iff in Hb as [Hxb Hb].
    assert (H : length l <= bound - S x).
    { apply IHl; [exact Hsl|]. rewrite Forall_forall in *. intros y Hy.
      specialize (Hx y Hy). specialize (Hb y Hy). lia. }
    lia. }
  rewrite <- (length_map call_item).
  specialize (Hlen (map call_item blocks) 0 Hs).
  rewrite Nat.sub_0_r in Hlen. apply Hlen.
  apply Forall_map. eapply Forall_impl; [|exact Hlt]. simpl. lia.
Qed.

Section WholeRuns.

Variable URL_href : jsstring -> jsstring -> option jsstring.
Variable h : Host.

Lemma item_loop_general (fuel i : nat) (st : Heap) :
  Forall built_by_node (returnData st) ->
  calls_by_item i (trace st) ->
  match item_loop URL_href fuel h i st with
  | Returned out calls =>
      (exists records, out = [records] /\ Forall built_by_node records)
      /\ exists bound, calls_by_item bound calls
  | Raised e calls =>
      (exists bound, calls_by_item bound calls)
      /\ (continueOnFail h = true -> exists k, 1 <= k /\ input_read_failure h k e)
  | OutOfFuel => True
  end.
Proof.
  revert i st. induction fuel as [|fuel IH]; intros i st Hrec Hcalls; simpl.
  - destruct (i <? length (items st)); [exact I|].
    split; [now exists (returnData st) | now exists i].
  - destruct (i <? length (items st)) eqn:Hlt.
    2: { split; [now exists (returnData st) | now exists i]. }
    apply Nat.ltb_lt in Hlt.
    destruct (iteration_cases URL_href h i st)
      as (items' & added & calls & c & -> & Hadded & Hshape & _ & Hon & _).
    assert (Hnext : calls_by_item (S i) (trace st ++ calls)).
    { apply calls_by_item_step; [exact Hcalls|].
      destruct Hshape as [-> | (b & Hb & -> & _)]; [now left | right; now exists b]. }
    destruct c as [[]|e].
    + apply IH; simpl; [|exact Hnext]. apply Forall_app. now split.
    + split; [now exists (S i)|]. intros Hcof. exists i. now apply Hon.
Qed.

(** With continue-on-failure off: no [teardown] so far while the loop
    goes on, one at most when it stops with an error, which carries the
    index of the round that failed. *)
Lemma item_loop_off (fuel i : nat) (st : Heap) :
  continueOnFail h = false ->
  teardown_count (trace st) = 0 ->
  Forall (fun ev => event_item ev < i) (trace st) ->
  match item_loop URL_href fuel h i st with
  | Returned out calls => teardown_count calls = 0
  | Raised e calls =>
      exists k, i <= k < length (items st)
        /\ context e = Some {| itemIndex := Some k |}
        /\ teardown_count calls <= 1
        /\ Forall (fun ev => event_item ev <= k) calls
  | OutOfFuel => True
  end.
Proof.
  intros Hoff. revert i st.
  induction fuel as [|fuel IH]; intros i st Hzero Hbelow; simpl.
  - destruct (i <? length (items st)); [exact I | exact Hzero].
  - destruct (i <? length (items st)) eqn:Hlt; [|exact Hzero].
    apply Nat.ltb_lt in Hlt.
    destruct (iteration_cases URL_href h i st)
      as (items' & added & calls & c & -> & _ & Hshape & Hoff' & _ & _).
    destruct (Hoff' Hoff) as [-> Hctx].
    assert (Hitem : Forall (fun ev => event_item ev <= i) calls
                    /\ teardown_count calls <= 1
                    /\ (c = Normal tt -> teardown_count calls = 0)).
    { destruct Hshape as [-> | (b & Hb & -> & Hthrow)].
      - split; [constructor|]. split; [cbv; lia|]. reflexivity.
      - unfold item_events. rewrite Hb.
        destruct (call_teardown b) eqn:Ht.
        + split; [repeat constructor|]. split; [cbv; lia|].
          intros ->. destruct (Hthrow eq_refl Hoff) as (e & He). discriminate He.
        + split; [repeat constructor|]. split; [cbv; lia|]. reflexivity. }
    destruct Hitem as (Hle & Hone & Hnormal).
    destruct c as [[]|e].
    + specialize (IH (S i)
        {| items := items st; returnData := returnData st ++ added;
           trace := trace st ++ calls |}).
      simpl in IH.
      assert (H0 : teardown_count (trace st ++ calls) = 0).
      { rewrite teardown_count_app, Hzero, (Hnormal eq_refl). reflexivity. }
      assert (H1 : Forall (fun ev => event_item ev < S i) (trace st ++ calls)).
      { apply Forall_app. split.
        - eapply Forall_impl; [|exact Hbelow]. simpl. lia.
        - eapply Forall_impl; [|exact Hle]. simpl. lia. }
      specialize (IH H0 H1).
      destruct (item_loop URL_href fuel h (S i) _) as [out calls'|e calls'|];
        try exact IH.
      destruct IH as (k & Hk & Hrest). exists k. split; [lia | exact Hrest].
    + simpl. exists i. repeat split; try lia.
      * now apply Hctx.
      * rewrite teardown_count_app, Hzero. exact Hone.
      * apply Forall_app. split; [|exact Hle].
        eapply Forall_impl; [|exact Hbelow]. simpl. lia.
Qed.

Lemma item_loop_more_fuel (fuel i : nat) (st : Heap) :
  item_loop URL_href fuel h i st <> OutOfFuel ->
  item_loop URL_href (S fuel) h i st = item_loop URL_href fuel h i st.
Proof.
  revert i st. induction fuel as [|fuel IH]; intros i st Hdone.
  - simpl in *. destruct (i <? length (items st)); [now contradiction Hdone | reflexivity].
  - change (item_loop URL_href (S (S fuel)) h i st)
      with (if i <? length (items st)
            then match iteration URL_href h i st with
                 | (st', Normal _) => item_loop URL_href (S fuel) h (S i) st'
                 | (st', Throw e) => Raised e (trace st')
                 end
            else Returned [returnData st] (trace st)).
    change (item_loop URL_href (S fuel) h i st)
      with (if i <? length (items st)
            then match iteration URL_href h i st with
                 | (st', Normal _) => item_loop URL_href fuel h (S i) st'
                 | (st', Throw e) => Raised e (trace st')
                 end
            else Returned [returnData st] (trace st)) in Hdone |- *.
    destruct (i <? length (items st)); [|reflexivity].
    destruct (iteration URL_href h i st) as [st' [[]|e]]; [|reflexivity].
    now apply IH.
Qed.

End WholeRuns.

Lemma item_loop_off_calls
  (URL_href : jsstring -> jsstring -> option jsstring)
  (h : Host) (fuel i : nat) (st : Heap) :
  continueOnFail h = false ->
  i <= length (items st) ->
  calls_by_item i (trace st) ->
  match item_loop URL_href fuel h i st with
  | Returned _ calls | Raised _ calls => calls_by_item (length (items st)) calls
  | OutOfFuel => True
  end.
Proof.
  intros Hoff. revert i st.
  assert (Hweaken : forall a b t, a <= b -> calls_by_item a t -> calls_by_item b t).
  { intros a b t Hab (blocks & E & Hs & Hlt). exists blocks. repeat split; try assumption.
    eapply Forall_impl; [|exact Hlt]. simpl. lia. }
  induction fuel as [|fuel IH]; intros i st Hle Hcalls; simpl.
  - destruct (i <? length (items st)); [exact I|]. now apply (Hweaken i).
  - destruct (i <? length (items st)) eqn:Hlt; [|now apply (Hweaken i)].
    apply Nat.ltb_lt in Hlt.
    destruct (iteration_cases URL_href h i st)
      as (items' & added & calls & c & -> & _ & Hshape & Hoff' & _ & _).
    destruct (Hoff' Hoff) as [-> _].
    assert (Hnext : calls_by_item (S i) (trace st ++ calls)).
    { apply calls_by_item_step; [exact Hcalls|].
      destruct Hshape as [-> | (b & Hb & -> & _)]; [now left | right; now exists b]. }
    destruct c as [[]|e].
    + apply (IH (S i) {| items := items st; returnData := returnData st ++ added;
                         trace := trace st ++ calls |}); [exact Hlt | exact Hnext].
    + now apply (Hweaken (S i)).
Qed.

(** X8. Whatever the host and the crawler do, [execute] returns one
    output branch, and every record in it keeps the limits: text of at
    most 50,003 units, markup of at most 100,003 units, links without
    duplicates. *)
Theorem execute_records_within_limits
  (URL_href : jsstring -> jsstring -> option jsstring)
  (fuel : nat) (h : Host)
  (out : list (list INodeExecutionData)) (calls : list Event) :
  execute URL_href fuel h = Returned out calls ->
  exists records, out = [records] /\ Forall record_within_limits records.
Proof.
  intros Hexec.
  pose proof (item_loop_general URL_href h fuel 0 (initial_heap h)) as H.
  fold (execute URL_href fuel h) in H. rewrite Hexec in H.
  destruct H as [(records & -> & Hbuilt) _].
  - constructor.
  - exists []. repeat split; constructor.
  - exists records. split; [reflexivity|].
    eapply Forall_impl; [|exact Hbuilt]. apply built_within_limits.
Qed.

(** The long page, fetched by a text item. *)
Lemma execute_records_within_limits_witness :
  Forall record_within_limits [textRequestHandler seed long_page].
Proof.
  destruct (execute_records_within_limits URL_href_covered 1
              (static_host seed (js "extractText") 1 false
                 {| handled := [long_page]; rejected := None |})
              [[textRequestHandler seed long_page]]
              [EvRun 0 singlePageCrawlerOptions
                 [appendTimestampToUrl seed 1700000000000]]
              eq_refl) as (records & Hout & Hlimits).
  injection Hout as <-. exact Hlimits.
Defined.

(** X9. The outside calls of a run of [execute], returned or raised,
    are grouped by item in increasing index order: for each item at
    most one [run], and a [teardown] only directly after the [run] of
    the same item; so there are never more [teardown] than [run]
    calls. *)
Theorem execute_calls_by_item
  (URL_href : jsstring -> jsstring -> option jsstring)
  (fuel : nat) (h : Host) (calls : list Event) :
  (exists out, execute URL_href fuel h = Returned out calls)
  \/ (exists e, execute URL_href fuel h = Raised e calls) ->
  (exists bound, calls_by_item bound calls)
  /\ teardown_count calls <= run_count calls.
Proof.
  intros Hexec.
  assert (Hcalls : exists bound, calls_by_item bound calls).
  { pose proof (item_loop_general URL_href h fuel 0 (initial_heap h)) as H.
    fold (execute URL_href fuel h) in H.
    assert (Hstart : calls_by_item 0 (trace (initial_heap h))).
    { exists []. repeat split; constructor. }
    destruct Hexec as [(out & E) | (e & E)]; rewrite E in H;
      apply H; try exact Hstart; constructor. }
  split; [exact Hcalls|].
  destruct Hcalls as (bound & Hb). now apply (calls_by_item_counts bound).
Qed.

Lemma execute_calls_by_item_witness :
  teardown_count
    [EvRun 0 singlePageCrawlerOptions [appendTimestampToUrl seed 1700000000000];
     EvTeardown 0]
  <= run_count
       [EvRun 0 singlePageCrawlerOptions [appendTimestampToUrl seed 1700000000000];
        EvTeardown 0].
Proof.
  apply (execute_calls_by_item URL_href_covered 1
           (static_host seed (js "extractText") 1 false failed_run)).
  right. eexists. reflexivity.
Defined.

(** X10. With continue-on-failure off, [execute] ends within one round
    per input item: with that much fuel or more it returns or raises,
    and more fuel never changes the result. *)
Theorem execute_terminates_when_failing_fast
  (URL_href : jsstring -> jsstring -> option jsstring)
  (h : Host) (fuel : nat) :
  continueOnFail h = false ->
  length (inputItems h) <= fuel ->
  execute URL_href fuel h = execute URL_href (length (inputItems h)) h
  /\ execute URL_href fuel h <> OutOfFuel.
Proof.
  intros Hoff Hfuel.
  assert (Hsame : execute URL_href fuel h
                  = execute URL_href (length (inputItems h)) h).
  { induction Hfuel as [|fuel Hfuel IH]; [reflexivity|].
    rewrite <- IH. unfold execute. apply item_loop_more_fuel.
    fold (execute URL_href fuel h). rewrite IH. now apply execute_total. }
  split; [exact Hsame|]. rewrite Hsame. now apply execute_total.
Qed.

Lemma execute_terminates_when_failing_fast_witness :
  execute URL_href_covered 5 (static_host seed (js "extractText") 1 false one_page)
  = execute URL_href_covered 1 (static_host seed (js "extractText") 1 false one_page).
Proof.
  apply (execute_terminates_when_failing_fast URL_href_covered
           (static_host seed (js "extractText") 1 false one_page) 5 eq_refl).
  simpl. lia.
Defined.

(** X11. With continue-on-failure off: a run that returns has made no
    [teardown] call and at most one [run] call per input item; a run
    that raises carries in its error the index of an input item, has
    made at most one [teardown] call, and has made no call for any item
    after that one. *)
Theorem execute_failing_fast_outcomes
  (URL_href : jsstring -> jsstring -> option jsstring)
  (h : Host) (fuel : nat) :
  continueOnFail h = false ->
  (forall out calls,
     execute URL_href fuel h = Returned out calls ->
     teardown_count calls = 0 /\ run_count calls <= length (inputItems h))
  /\ (forall e calls,
       execute URL_href fuel h = Raised e calls ->
       exists k, k < length (inputItems h)
         /\ context e = Some {| itemIndex := Some k |}
         /\ teardown_count calls <= 1
         /\ Forall (fun ev => event_item ev <= k) calls).
Proof.
  intros Hoff.
  pose proof (item_loop_off URL_href h fuel 0 (initial_heap h) Hoff eq_refl) as H.
  pose proof (item_loop_off_calls URL_href h fuel 0 (initial_heap h) Hoff) as Hc.
  fold (execute URL_href fuel h) in H, Hc. simpl in Hc.
  assert (Hstart : calls_by_item 0 []).
  { exists []. repeat split; constructor. }
  split.
  - intros out calls E. rewrite E in H, Hc. split.
    + apply H. constructor.
    + apply (calls_by_item_counts _ calls). apply Hc; [lia | exact Hstart].
  - intros e calls E. rewrite E in H.
    destruct H as (k & Hk & Hrest); [constructor|].
    exists k. split; [simpl in Hk; lia | exact Hrest].
Qed.

(** A refused connection on the only item. *)
Lemma execute_failing_fast_outcomes_witness :
  exists e calls,
    execute URL_href_covered 1 (static_host seed (js "extractText") 1 false failed_run)
    = Raised e calls
    /\ exists k, k < 1 /\ context e = Some {| itemIndex := Some k |}
                 /\ teardown_count calls <= 1.
Proof.
  eexists _, _. split; [reflexivity|].
  destruct (execute_failing_fast_outcomes URL_href_covered
              (static_host seed (js "extractText") 1 false failed_run) 1 eq_refl)
    as [_ Hraised].
  destruct (Hraised _ _ eq_refl) as (k & Hk & Hctx & Hone & _).
  exists k. repeat split; assumption.
Defined.

(** X12. With continue-on-failure on, an error [execute] raises comes
    from the [this.getInputData(k)] of its own [catch] block, at an item
    index [k >= 1]: it is the error the host throws for that input
    index, or the [TypeError] of reading [.json] where that input has no
    first item. *)
Theorem execute_continuing_raises_input_read_failure
  (URL_href : jsstring -> jsstring -> option jsstring)
  (h : Host) (fuel : nat) (e : JsError) (calls : list Event) :
  continueOnFail h = true ->
  execute URL_href fuel h = Raised e calls ->
  exists k, 1 <= k /\ input_read_failure h k e.
Proof.
  intros Hon Hexec.
  pose proof (item_loop_general URL_href h fuel 0 (initial_heap h)) as H.
  fold (execute URL_href fuel h) in H. rewrite Hexec in H.
  apply H; try exact Hon; try constructor.
  exists []. repeat split; constructor.
Qed.

(** A run that is rejected, and rejected again in the extra round that
    the record pushed onto [items] brings about: input 1 is
    [undefined]. *)
Lemma execute_continuing_raises_input_read_failure_witness :
  execute URL_href_covered 2 (static_host seed (js "extractHtml") 1 true failed_run)
  = Raised TypeError_undefined
      [EvRun 0 singlePageCrawlerOptions [appendTimestampToUrl seed 1700000000000];
       EvTeardown 0;
       EvRun 1 singlePageCrawlerOptions [appendTimestampToUrl seed 1700000000000];
       EvTeardown 1]
  /\ exists k, 1 <= k
       /\ input_read_failure (static_host seed (js "extractHtml") 1 true failed_run) k
            TypeError_undefined.
Proof.
  split; [reflexivity|].
  apply (execute_continuing_raises_input_read_failure URL_href_covered
           (static_host seed (js "extractHtml") 1 true failed_run) 2 _ _
           eq_refl eq_refl).
Defined.

(** ** A batch in which every item succeeds *)

Lemma iteration_of_normal_try
  (URL_href : jsstring -> jsstring -> option jsstring)
  (h : Host) (i : nat) (st : Heap) :
  snd (tryBlock URL_href h i st) = Normal tt ->
  iteration URL_href h i st = (fst (fst (tryBlock URL_href h i st)), Normal tt)
  /\ items (fst (fst (tryBlock URL_href h i st))) = items st.
Proof.
  intros Hnormal.
  destruct (tryBlock_cases URL_href h i st)
    as (added & calls & crawler & c & Htry & _ & Hcalls).
  unfold iteration. rewrite Htry in *. simpl in Hnormal. subst c.
  assert (Hnone : crawler = None).
  { destruct Hcalls as [(_ & H & _) | (opts & requests & _ & H)]; exact H. }
  subst crawler. split; reflexivity.
Qed.

(** X13. When the [try] block of every input item completes normally,
    [execute] returns, after one round per item, the records of item 0,
    then those of item 1, and so on, each item contributing exactly what
    its [try] block produces on its own; the calls come in the same
    order. *)
Theorem execute_all_items_succeed
  (URL_href : jsstring -> jsstring -> option jsstring) (h : Host) :
  (forall i, i < length (inputItems h) ->
     snd (try_alone URL_href h i) = Normal tt) ->
  execute URL_href (length (inputItems h)) h
  = Returned
      [flat_map (fun i => returnData (fst (fst (try_alone URL_href h i))))
         (seq 0 (length (inputItems h)))]
      (flat_map (fun i => trace (fst (fst (try_alone URL_href h i))))
         (seq 0 (length (inputItems h)))).
Proof.
  intros Hall.
  assert (Hloop : forall k i st,
    items st = inputItems h ->
    i + k = length (inputItems h) ->
    item_loop URL_href k h i st
    = Returned
        [returnData st
         ++ flat_map (fun j => returnData (fst (fst (try_alone URL_href h j)))) (seq i k)]
        (trace st
         ++ flat_map (fun j => trace (fst (fst (try_alone URL_href h j)))) (seq i k))).
  { induction k as [|k IH]; intros i st Hitems Hik; simpl.
    - assert (Hge : (i <? length (items st)) = false).
      { apply Nat.ltb_ge. rewrite Hitems. lia. }
      rewrite Hge, !app_nil_r. reflexivity.
    - assert (Hlt : (i <? length (items st)) = true).
      { apply Nat.ltb_lt. rewrite Hitems. lia. }
      rewrite Hlt.
      assert (Htry : tryBlock URL_href h i st
                     = (heap_after st (fst (fst (try_alone URL_href h i))),
                        snd (fst (try_alone URL_href h i)),
                        snd (try_alone URL_href h i))).
      { rewrite <- (heap_after_fresh st) at 1. rewrite tryBlock_after, Hitems.
        unfold try_alone.
        now destruct (tryBlock URL_href h i (fresh_heap (inputItems h))) as [[d cv] c]. }
      assert (Hnormal : snd (tryBlock URL_href h i st) = Normal tt).
      { rewrite Htry. simpl. apply Hall. lia. }
      destruct (iteration_of_normal_try URL_href h i st Hnormal) as [-> Hkeep].
      rewrite IH.
      + rewrite Htry. simpl. now rewrite <- !app_assoc.
      + now rewrite Hkeep.
      + lia. }
  unfold execute. rewrite Hloop; [reflexivity | reflexivity | lia].
Qed.

(** One text item whose page is fetched. *)
Lemma execute_all_items_succeed_witness :
  execute URL_href_covered 1 (static_host seed (js "extractText") 1 true one_page)
  = Returned [[textRequestHandler seed sample_page]]
      [EvRun 0 singlePageCrawlerOptions [appendTimestampToUrl seed 1700000000000]].
Proof.
  apply (execute_all_items_succeed URL_href_covered
           (static_host seed (js "extractText") 1 true one_page)).
  intros i Hi. simpl in Hi. assert (i = 0) as -> by lia. reflexivity.
Defined.

(** ** Continue-on-failure on a host with one input *)

Section SingleInput.

Variable URL_href : jsstring -> jsstring -> option jsstring.
Variable h : Host.
Hypothesis Hsingle : single_input h.

Lemma catchBlock_single_input (i : nat) (e : JsError) (st : Heap) :
  continueOnFail h = true -> 1 <= i ->
  exists e', catchBlock h i e st = (st, Throw e')
    /\ (i = 1 -> e' = TypeError_undefined)
    /\ (2 <= i -> otherInputs h i = Throw e').
Proof.
  intros Hon Hi. unfold catchBlock. rewrite Hon.
  destruct Hsingle as [Hone Hmore].
  destruct i as [|[|i]]; [lia | |].
  - exists TypeError_undefined. simpl.
    split; [destruct Hone as [-> | ->]; reflexivity|].
    split; [reflexivity | lia].
  - destruct (Hmore (S (S i))) as (e' & He'); [lia|].
    exists e'. simpl. rewrite He'.
    split; [reflexivity|]. split; [discriminate | reflexivity].
Qed.

Lemma iteration_single_input_items (i : nat) (st : Heap) :
  length (items (fst (iteration URL_href h i st)))
  <= length (items st) + (if i =? 0 then 1 else 0).
Proof.
  destruct (tryBlock_cases URL_href h i st)
    as (added & calls & crawler & c & Htry & _ & _).
  unfold iteration. rewrite Htry.
  destruct c as [[]|e]; cbn [fst].
  - rewrite finallyBlock_items. simpl. lia.
  - destruct (continueOnFail h) eqn:Hcof.
    + destruct i as [|i].
      * unfold catchBlock. rewrite Hcof. simpl.
        destruct (items st) as [|first rest]; cbn [fst];
          rewrite finallyBlock_items; simpl; [lia|].
        rewrite length_app. simpl. lia.
      * match goal with
        | |- context [catchBlock h (S i) e ?st1] =>
            destruct (catchBlock_single_input (S i) e st1 Hcof) as (e' & -> & _);
              [lia|]
        end.
        cbn [fst]. rewrite finallyBlock_items. simpl. lia.
    + destruct (catchBlock_rethrows h i e
        {| items := items st; returnData := returnData st ++ added;
           trace := trace st ++ calls |} Hcof) as (e' & -> & _).
      cbn [fst]. rewrite finallyBlock_items. simpl. lia.
Qed.

Lemma item_loop_single_input_total (fuel i : nat) (st : Heap) :
  length (items st) - i + (if i =? 0 then 1 else 0) <= fuel ->
  item_loop URL_href fuel h i st <> OutOfFuel.
Proof.
  revert i st. induction fuel as [|fuel IH]; intros i st Hfuel; simpl.
  - destruct (i <? length (items st)) eqn:E; [|discriminate].
    apply Nat.ltb_lt in E. lia.
  - destruct (i <? length (items st)) eqn:E; [|discriminate].
    apply Nat.ltb_lt in E.
    pose proof (iteration_single_input_items i st) as Hgrow.
    destruct (iteration URL_href h i st) as [st' [[]|e]]; [|discriminate].
    simpl in Hgrow. apply IH. simpl.
    destruct (i =? 0); lia.
Qed.

End SingleInput.

(** X14. On a host with a single input, and with continue-on-failure
    on, a failure of any item but the first cannot be continued: its
    [catch] block throws in place of the item's error, the [TypeError]
    at item 1 (input 1 is [undefined] or empty) and the host's own
    error for the input index from item 2 on, and [execute] raises it
    after the [finally] block has run. *)
Theorem later_item_failure_is_not_continued
  (URL_href : jsstring -> jsstring -> option jsstring)
  (h : Host) (fuel i : nat) (st st1 : Heap) (crawler : CrawlerVar) (e : JsError) :
  single_input h ->
  continueOnFail h = true ->
  1 <= i < length (items st) ->
  tryBlock URL_href h i st = (st1, crawler, Throw e) ->
  exists e',
    item_loop URL_href (S fuel) h i st
    = Raised e' (trace (finallyBlock h i crawler st1))
    /\ (i = 1 -> e' = TypeError_undefined)
    /\ (2 <= i -> otherInputs h i = Throw e').
Proof.
  intros Hsingle Hon [Hi Hlt] Htry.
  destruct (catchBlock_single_input h Hsingle i e st1 Hon Hi)
    as (e' & Hcatch & Hfirst & Hlater).
  exists e'. split; [|split; assumption].
  simpl. apply Nat.ltb_lt in Hlt. rewrite Hlt.
  unfold iteration. now rewrite Htry, Hcatch.
Qed.

(** X15. On a host with a single input, [execute] always ends, with
    continue-on-failure on or off: the [items] array grows by one record
    at most, so one round more than there are input items is enough. *)
Theorem execute_terminates_on_single_input
  (URL_href : jsstring -> jsstring -> option jsstring)
  (h : Host) (fuel : nat) :
  single_input h ->
  S (length (inputItems h)) <= fuel ->
  execute URL_href fuel h <> OutOfFuel.
Proof.
  intros Hsingle Hfuel. apply item_loop_single_input_total; [exact Hsingle|].
  simpl. lia.
Qed.

Lemma static_host_single_input url operation d continue report :
  single_input (static_host url operation d continue report).
Proof.
  split; [now left|]. intros [|[|k]] Hk; try lia. now exists no_such_input.
Qed.

Lemma two_item_host_single_input continue : single_input (two_item_host continue).
Proof.
  split; [now left|]. intros [|[|k]] Hk; try lia. now exists no_such_input.
Qed.

(** The second of two items is refused its connection, after the first
    has returned its record. *)
Lemma later_item_failure_is_not_continued_witness :
  item_loop URL_href_covered 1 (two_item_host true) 1
    {| items := inputItems (two_item_host true);
       returnData := [textRequestHandler seed sample_page];
       trace := [EvRun 0 singlePageCrawlerOptions
                   [appendTimestampToUrl seed 1700000000000]] |}
  = Raised TypeError_undefined
      [EvRun 0 singlePageCrawlerOptions [appendTimestampToUrl seed 1700000000000];
       EvRun 1 singlePageCrawlerOptions [appendTimestampToUrl seed 1700000000001];
       EvTeardown 1].
Proof.
  destruct (later_item_failure_is_not_continued URL_href_covered (two_item_host true)
           0 1
           {| items := inputItems (two_item_host true);
              returnData := [textRequestHandler seed sample_page];
              trace := [EvRun 0 singlePageCrawlerOptions
                          [appendTimestampToUrl seed 1700000000000]] |}
           {| items := inputItems (two_item_host true);
              returnData := [textRequestHandler seed sample_page];
              trace := [EvRun 0 singlePageCrawlerOptions
                          [appendTimestampToUrl seed 1700000000000];
                        EvRun 1 singlePageCrawlerOptions
                          [appendTimestampToUrl seed 1700000000001]] |}
           (Some singlePageCrawlerOptions) fetch_error
           (two_item_host_single_input true) eq_refl)
    as (e' & Hloop & Hfirst & _).
  - simpl. lia.
  - reflexivity.
  - rewrite (Hfirst eq_refl) in Hloop. exact Hloop.
Defined.

Lemma execute_terminates_on_single_input_witness :
  execute URL_href_covered 2 (static_host [] (js "extractText") 1 true one_page)
  <> OutOfFuel.
Proof.
  apply (execute_terminates_on_single_input URL_href_covered
           (static_host [] (js "extractText") 1 true one_page) 2
           (static_host_single_input _ _ _ _ _)).
  simpl. lia.
Defined.

(* ================================================================== *)
(** ** The busted request, seen by the URL parser

    What [appendTimestampToUrl] does to the URL the request string
    denotes, for seeds the parser model covers. *)

Module CacheBusting.

Import URLStandard.

Lemma covered_unit_spec (c : code_unit) :
  covered_unit c = true ->
  (32 < c)%N /\ is_ascii_tab_or_newline c = false /\ is_c0_control_or_space c = false.
Proof.
  intros H.
  assert (Hc : (32 < c)%N).
  { unfold covered_unit, is_ascii_alphanumeric, is_ascii_digit, is_ascii_alpha,
      is_ascii_upper_alpha, is_ascii_lower_alpha, includes_unit, code_unit_eqb in H.
    cbn [js list_ascii_of_string map existsb] in H.
    repeat (apply orb_true_iff in H; destruct H as [H|H]);
      rewrite ?andb_true_iff, ?N.leb_le, ?N.eqb_eq in H; try (cbv in H; lia); try lia. }
  unfold is_ascii_tab_or_newline, is_c0_control_or_space.
  repeat split; [exact Hc | |].
  - rewrite !orb_false_iff, !N.eqb_neq. lia.
  - apply N.leb_gt. exact Hc.
Qed.

Lemma strip_leading_covered (s : jsstring) :
  forallb covered_unit s = true -> strip_leading s = s.
Proof.
  destruct s as [|c s]; [reflexivity|]. simpl. intros H.
  apply andb_true_iff in H as [Hc _].
  apply covered_unit_spec in Hc as (_ & _ & ->). reflexivity.
Qed.

(** Input made of covered units is left as it is by the preparation. *)
Lemma prepare_covered (s : jsstring) :
  forallb covered_unit s = true -> prepare s = s.
Proof.
  intros H. unfold prepare.
  rewrite (strip_leading_covered s H).
  assert (Hrev : forallb covered_unit (rev s) = true).
  { rewrite forallb_forall in *. intros x Hx. apply H. now apply in_rev. }
  rewrite (strip_leading_covered _ Hrev), rev_involutive.
  induction s as [|c s IH]; [reflexivity|]. simpl in *.
  apply andb_true_iff in H as [Hc Hs].
  apply covered_unit_spec in Hc as (_ & -> & _). simpl. f_equal.
  apply IH; [exact Hs|].
  rewrite forallb_forall in *. intros x Hx. apply Hs. now apply in_rev.
Qed.

Lemma uint_units_covered (d : Decimal.uint) :
  forallb covered_unit (js (NilEmpty.string_of_uint d)) = true
  /\ includes_unit (js (NilEmpty.string_of_uint d)) NUMBER_SIGN = false.
Proof.
  induction d as [|d [IH1 IH2]|d [IH1 IH2]|d [IH1 IH2]|d [IH1 IH2]|d [IH1 IH2]
                 |d [IH1 IH2]|d [IH1 IH2]|d [IH1 IH2]|d [IH1 IH2]|d [IH1 IH2]];
    simpl; split; try reflexivity;
    first [ change (forallb covered_unit (js (NilEmpty.string_of_uint d)) = true);
            exact IH1
          | change (includes_unit (js (NilEmpty.string_of_uint d)) NUMBER_SIGN = false);
            exact IH2 ].
Qed.

(** The rendering of the clock reading is made of covered units and
    holds no [#]. *)
Lemma timestamp_units (t : Z) :
  forallb covered_unit (Z_to_jsstring t) = true
  /\ includes_unit (Z_to_jsstring t) NUMBER_SIGN = false.
Proof.
  unfold Z_to_jsstring.
  assert (Hu : forall d, forallb covered_unit (js (NilZero.string_of_uint d)) = true
                /\ includes_unit (js (NilZero.string_of_uint d)) NUMBER_SIGN = false).
  { intros d. unfold NilZero.string_of_uint.
    destruct d; try apply uint_units_covered. split; reflexivity. }
  destruct (Z.to_int t) as [d|d]; simpl.
  - apply Hu.
  - destruct (Hu d) as [H1 H2]. split.
    + change (forallb covered_unit (js (NilZero.string_of_uint d)) = true). exact H1.
    + change (includes_unit (js (NilZero.string_of_uint d)) NUMBER_SIGN = false).
      exact H2.
Qed.


(** *** A seed with a fragment *)

Lemma query_state_fragment (inp buf : jsstring) (u0 : URLRecord) (f x : jsstring) :
  fragment u0 = None ->
  fragment (query_state inp buf u0) = Some f ->
  query_state (inp ++ x) buf u0 = fragment_state (f ++ x) (query_state inp buf u0).
Proof.
  revert buf. induction inp as [|c inp IH]; intros buf H0 Hf; simpl in *.
  - congruence.
  - destruct (c =? NUMBER_SIGN)%N.
    + simpl in Hf. injection Hf as <-. reflexivity.
    + now apply IH.
Qed.

Lemma path_state_fragment (inp buf : jsstring) (u0 : URLRecord) (f x : jsstring) :
  fragment u0 = None ->
  fragment (path_state inp buf u0) = Some f ->
  path_state (inp ++ x) buf u0 = fragment_state (f ++ x) (path_state inp buf u0).
Proof.
  revert buf u0. induction inp as [|c inp IH]; intros buf u0 H0 Hf; simpl in *.
  - congruence.
  - destruct (c =? SOLIDUS)%N; [now apply IH|].
    destruct (c =? QUESTION_MARK)%N; [now apply query_state_fragment|].
    destruct (c =? NUMBER_SIGN)%N.
    + simpl in Hf. injection Hf as <-. reflexivity.
    + now apply IH.
Qed.

Lemma path_start_state_fragment (inp : jsstring) (u0 : URLRecord) (f x : jsstring) :
  fragment u0 = None ->
  fragment (path_start_state inp u0) = Some f ->
  path_start_state (inp ++ x) u0 = fragment_state (f ++ x) (path_start_state inp u0).
Proof.
  intros H0 Hf. destruct inp as [|c inp].
  - simpl in *. congruence.
  - cbn [app]. unfold path_start_state in *.
    destruct (c =? SOLIDUS)%N.
    + now apply path_state_fragment.
    + now apply (path_state_fragment (c :: inp)).
Qed.

Lemma span_until_app (stop : code_unit -> bool) (inp a r x : jsstring) (c : code_unit) :
  span_until stop inp = (a, c :: r) ->
  span_until stop (inp ++ x) = (a, (c :: r) ++ x).
Proof.
  revert a. induction inp as [|y inp IH]; intros a; simpl.
  - discriminate.
  - destruct (stop y).
    + now intros [= <- <- <-].
    + destruct (span_until stop inp) as [pre post]. intros [= <- ->].
      now rewrite (IH pre eq_refl).
Qed.

Lemma span_until_app_stop (stop : code_unit -> bool) (inp a x : jsstring) (y : code_unit) :
  span_until stop inp = (a, []) -> stop y = true ->
  span_until stop (inp ++ y :: x) = (a, y :: x).
Proof.
  revert a. induction inp as [|z inp IH]; intros a; simpl.
  - intros [= <-] ->. reflexivity.
  - destruct (stop z); [discriminate|].
    destruct (span_until stop inp) as [pre post]. intros [= <- ->] Hy.
    now rewrite (IH pre eq_refl Hy).
Qed.

Lemma authority_state_fragment (s inp : jsstring) (u : URLRecord) (f x : jsstring) :
  authority_state s inp = Parsed u ->
  fragment u = Some f ->
  authority_state s (inp ++ x) = Parsed (fragment_state (f ++ x) u).
Proof.
  unfold authority_state.
  destruct (span_until is_authority_end inp) as [authority remaining] eqn:Es.
  destruct remaining as [|c r].
  - destruct (span_until (N.eqb COLON) authority) as [buffer after_host].
    destruct buffer; [discriminate|].
    destruct (host_parse _); try discriminate.
    destruct (port_state _ _); try discriminate.
    intros [= <-]. simpl. discriminate.
  - rewrite (span_until_app _ _ _ _ x _ Es).
    destruct (span_until (N.eqb COLON) authority) as [buffer after_host].
    destruct buffer; [discriminate|].
    destruct (host_parse _); try discriminate.
    destruct (port_state _ _); try discriminate.
    intros [= <-] Hf. f_equal. now apply path_start_state_fragment.
Qed.

Lemma ignore_slashes_fragment (s inp : jsstring) (u : URLRecord) (f x : jsstring) :
  special_authority_ignore_slashes_state s inp = Parsed u ->
  fragment u = Some f ->
  special_authority_ignore_slashes_state s (inp ++ x)
  = Parsed (fragment_state (f ++ x) u).
Proof.
  induction inp as [|c inp IH]; simpl.
  - discriminate.
  - destruct (c =? SOLIDUS)%N; [exact IH|].
    apply (authority_state_fragment s (c :: inp)).
Qed.

Lemma scheme_state_app (inp buf s r x : jsstring) :
  scheme_state inp buf = Some (s, r) ->
  scheme_state (inp ++ x) buf = Some (s, r ++ x).
Proof.
  revert buf. induction inp as [|c inp IH]; intros buf; simpl.
  - discriminate.
  - destruct (is_ascii_alphanumeric c || (c =? 43) || (c =? HYPHEN_MINUS)
              || (c =? FULL_STOP))%N; [apply IH|].
    destruct (c =? COLON)%N; [|discriminate].
    now intros [= <- <-].
Qed.

Lemma scheme_start_state_app (inp s r x : jsstring) :
  scheme_start_state inp = Some (s, r) ->
  scheme_start_state (inp ++ x) = Some (s, r ++ x).
Proof.
  destruct inp as [|c inp]; simpl; [discriminate|].
  destruct (is_ascii_alpha c); [apply scheme_state_app | discriminate].
Qed.

(** What the parser does, without a base, on covered input. *)
Lemma basic_URL_parser_covered (input : jsstring) :
  forallb covered_unit input = true ->
  basic_URL_parser input None
  = match scheme_start_state input with
    | Some (s, remaining) =>
        match default_port s with
        | None => Unmodelled
        | Some _ => special_authority_ignore_slashes_state s remaining
        end
    | None => Failure
    end.
Proof.
  intros H. unfold basic_URL_parser. rewrite (prepare_covered input H), H. reflexivity.
Qed.

Lemma parser_fragment_extension (url x : jsstring) (u : URLRecord) (f : jsstring) :
  forallb covered_unit url = true ->
  forallb covered_unit x = true ->
  basic_URL_parser url None = Parsed u ->
  fragment u = Some f ->
  basic_URL_parser (url ++ x) None = Parsed (fragment_state (f ++ x) u).
Proof.
  intros Hurl Hx. rewrite !basic_URL_parser_covered; [|now rewrite forallb_app, Hurl, Hx | exact Hurl].
  destruct (scheme_start_state url) as [[s r]|] eqn:Es; [|discriminate].
  rewrite (scheme_start_state_app _ _ _ x Es).
  destruct (default_port s); [|discriminate].
  apply ignore_slashes_fragment.
Qed.


(** *** A seed without a fragment *)

Lemma includes_cons (c : code_unit) (s : jsstring) (q : code_unit) :
  includes_unit (c :: s) q = (c =? q)%N || includes_unit s q.
Proof. unfold includes_unit, code_unit_eqb. simpl. now rewrite N.eqb_sym. Qed.

Lemma query_state_plain (x buf : jsstring) (u0 : URLRecord) :
  includes_unit x NUMBER_SIGN = false ->
  query_state x buf u0 = set_query (Some (buf ++ x)) u0.
Proof.
  revert buf. induction x as [|c x IH]; intros buf H; simpl.
  - now rewrite app_nil_r.
  - rewrite includes_cons in H. apply orb_false_iff in H as [-> H].
    rewrite IH by exact H. now rewrite <- app_assoc.
Qed.

Lemma query_state_extension (inp buf : jsstring) (u0 : URLRecord) :
  fragment u0 = None ->
  fragment (query_state inp buf u0) = None ->
  exists q, query (query_state inp buf u0) = Some q
    /\ forall x, includes_unit x NUMBER_SIGN = false ->
         query_state (inp ++ x) buf u0
         = set_query (Some (q ++ x)) (query_state inp buf u0).
Proof.
  revert buf. induction inp as [|c inp IH]; intros buf H0 Hf; simpl in *.
  - exists buf. split; [reflexivity|]. intros x Hx. now rewrite query_state_plain.
  - destruct (c =? NUMBER_SIGN)%N; [discriminate Hf | now apply IH].
Qed.

Lemma path_state_extension (inp buf : jsstring) (u0 : URLRecord) :
  fragment u0 = None ->
  fragment (path_state inp buf u0) = None ->
  (includes_unit inp QUESTION_MARK = true ->
     exists q, query (path_state inp buf u0) = Some q
       /\ forall x, includes_unit x NUMBER_SIGN = false ->
            path_state (inp ++ x) buf u0
            = set_query (Some (q ++ x)) (path_state inp buf u0))
  /\ (includes_unit inp QUESTION_MARK = false ->
      query (path_state inp buf u0) = query u0
      /\ forall y, includes_unit y NUMBER_SIGN = false ->
           path_state (inp ++ QUESTION_MARK :: y) buf u0
           = set_query (Some y) (path_state inp buf u0)).
Proof.
  revert buf u0. induction inp as [|c inp IH]; intros buf u0 H0 Hf.
  - split; [discriminate|]. intros _. split; [reflexivity|]. intros y Hy.
    simpl. now rewrite query_state_plain.
  - rewrite includes_cons. simpl in Hf |- *.
    destruct (c =? SOLIDUS)%N eqn:Es.
    { assert (Hq : (c =? QUESTION_MARK)%N = false).
      { apply N.eqb_eq in Es. subst c. reflexivity. }
      rewrite Hq. simpl orb.
      destruct (IH [] (set_path (end_segment true buf (path u0)) u0) H0 Hf)
        as [Hyes Hno].
      split; [exact Hyes | exact Hno]. }
    destruct (c =? QUESTION_MARK)%N eqn:Eq.
    { simpl. split; [|discriminate]. intros _.
      now apply query_state_extension. }
    destruct (c =? NUMBER_SIGN)%N eqn:Eh; [discriminate Hf|].
    simpl. now apply IH.
Qed.

Lemma path_start_state_extension (inp : jsstring) (u0 : URLRecord) :
  fragment u0 = None ->
  fragment (path_start_state inp u0) = None ->
  (includes_unit inp QUESTION_MARK = true ->
     exists q, query (path_start_state inp u0) = Some q
       /\ forall x, includes_unit x NUMBER_SIGN = false ->
            hd 0%N x <> SOLIDUS \/ inp <> [] ->
            path_start_state (inp ++ x) u0
            = set_query (Some (q ++ x)) (path_start_state inp u0))
  /\ (includes_unit inp QUESTION_MARK = false ->
      query (path_start_state inp u0) = query u0
      /\ forall y, includes_unit y NUMBER_SIGN = false ->
           path_start_state (inp ++ QUESTION_MARK :: y) u0
           = set_query (Some y) (path_start_state inp u0)).
Proof.
  intros H0 Hf. destruct inp as [|c inp].
  - split; [discriminate|]. intros _. split; [reflexivity|]. intros y Hy.
    simpl. now rewrite query_state_plain.
  - cbn [app]. unfold path_start_state in *. rewrite includes_cons.
    destruct (c =? SOLIDUS)%N eqn:Es.
    + assert (Hq : (c =? QUESTION_MARK)%N = false).
      { apply N.eqb_eq in Es. subst c. reflexivity. }
      rewrite Hq. simpl orb.
      destruct (path_state_extension inp [] u0 H0 Hf) as [Hyes Hno]. split.
      * intros Hin. destruct (Hyes Hin) as (q & Hq' & Hext).
        exists q. split; [exact Hq'|]. intros x Hx _. now apply Hext.
      * exact Hno.
    + destruct (path_state_extension (c :: inp) [] u0 H0 Hf) as [Hyes Hno].
      rewrite includes_cons in Hyes, Hno. split.
      * intros Hin. destruct (Hyes Hin) as (q & Hq' & Hext).
        exists q. split; [exact Hq'|]. intros x Hx _. now apply Hext.
      * exact Hno.
Qed.

Lemma span_until_split (stop : code_unit -> bool) (inp a r : jsstring) :
  span_until stop inp = (a, r) ->
  inp = a ++ r /\ forallb (fun c => negb (stop c)) a = true.
Proof.
  revert a. induction inp as [|c inp IH]; intros a; simpl.
  - intros [= <- <-]. split; reflexivity.
  - destruct (stop c) eqn:Ec.
    + intros [= <- <-]. split; reflexivity.
    + destruct (span_until stop inp) as [pre post]. intros [= <- <-].
      destruct (IH pre eq_refl) as [-> Hpre]. split; [reflexivity|].
      simpl. now rewrite Ec, Hpre.
Qed.

Lemma includes_app (a b : jsstring) (q : code_unit) :
  includes_unit (a ++ b) q = includes_unit a q || includes_unit b q.
Proof. unfold includes_unit. apply existsb_app. Qed.

Lemma authority_has_no_question_mark (inp a r : jsstring) :
  span_until is_authority_end inp = (a, r) ->
  includes_unit inp QUESTION_MARK = includes_unit r QUESTION_MARK.
Proof.
  intros H. apply span_until_split in H as [-> Ha].
  rewrite includes_app.
  assert (Hnone : includes_unit a QUESTION_MARK = false).
  { induction a as [|c a IH]; [reflexivity|]. simpl in Ha.
    apply andb_true_iff in Ha as [Hc Ha]. rewrite includes_cons, (IH Ha).
    unfold is_authority_end in Hc. apply negb_true_iff in Hc.
    apply orb_false_iff in Hc as [Hc _]. apply orb_false_iff in Hc as [_ Hc].
    now rewrite Hc. }
  now rewrite Hnone.
Qed.

Lemma authority_state_extension (s inp : jsstring) (u : URLRecord) :
  authority_state s inp = Parsed u ->
  fragment u = None ->
  (includes_unit inp QUESTION_MARK = true ->
     exists q, query u = Some q
       /\ forall x, includes_unit x NUMBER_SIGN = false ->
            authority_state s (inp ++ x) = Parsed (set_query (Some (q ++ x)) u))
  /\ (includes_unit inp QUESTION_MARK = false ->
      query u = None
      /\ forall y, includes_unit y NUMBER_SIGN = false ->
           authority_state s (inp ++ QUESTION_MARK :: y)
           = Parsed (set_query (Some y) u)).
Proof.
  intros Hp Hf.
  destruct (span_until is_authority_end inp) as [authority remaining] eqn:Es.
  rewrite (authority_has_no_question_mark _ _ _ Es).
  unfold authority_state in Hp. rewrite Es in Hp.
  destruct (span_until (N.eqb COLON) authority) as [buffer after_host] eqn:Ec.
  destruct buffer as [|b0 buffer]; [discriminate|].
  destruct (host_parse (b0 :: buffer)) as [hst| |] eqn:Eh; try discriminate.
  destruct (port_state s (tl after_host)) as [prt| |] eqn:Ep; try discriminate.
  injection Hp as <-.
  destruct remaining as [|c r].
  - split; [discriminate|]. intros _. split; [reflexivity|].
    intros y Hy. unfold authority_state.
    rewrite (span_until_app_stop _ _ _ y QUESTION_MARK Es eq_refl), Ec, Eh, Ep.
    simpl. now rewrite query_state_plain.
  - destruct (path_start_state_extension (c :: r)
                {| scheme := s; host := hst; port := prt; path := [];
                   query := None; fragment := None |} eq_refl Hf) as [Hyes Hno].
    split.
    + intros Hin. destruct (Hyes Hin) as (q & Hq & Hext).
      exists q. split; [exact Hq|]. intros x Hx. unfold authority_state.
      rewrite (span_until_app _ _ _ _ x _ Es), Ec, Eh, Ep.
      rewrite (Hext x Hx); [reflexivity|]. right. discriminate.
    + intros Hin. destruct (Hno Hin) as (Hq & Hext). split; [exact Hq|].
      intros y Hy. unfold authority_state.
      rewrite (span_until_app _ _ _ _ (QUESTION_MARK :: y) _ Es), Ec, Eh, Ep.
      now rewrite (Hext y Hy).
Qed.

Lemma ignore_slashes_extension (s inp : jsstring) (u : URLRecord) :
  special_authority_ignore_slashes_state s inp = Parsed u ->
  fragment u = None ->
  (includes_unit inp QUESTION_MARK = true ->
     exists q, query u = Some q
       /\ forall x, includes_unit x NUMBER_SIGN = false ->
            hd 0%N x <> SOLIDUS ->
            special_authority_ignore_slashes_state s (inp ++ x)
            = Parsed (set_query (Some (q ++ x)) u))
  /\ (includes_unit inp QUESTION_MARK = false ->
      query u = None
      /\ forall y, includes_unit y NUMBER_SIGN = false ->
           special_authority_ignore_slashes_state s (inp ++ QUESTION_MARK :: y)
           = Parsed (set_query (Some y) u)).
Proof.
  induction inp as [|c inp IH]; intros Hp Hf.
  - discriminate Hp.
  - rewrite includes_cons. cbn [app]. simpl in Hp |- *.
    destruct (c =? SOLIDUS)%N eqn:Ec.
    + assert (Hq : (c =? QUESTION_MARK)%N = false).
      { apply N.eqb_eq in Ec. subst c. reflexivity. }
      rewrite Hq. simpl orb. now apply IH.
    + destruct (authority_state_extension s (c :: inp) u Hp Hf) as [Hyes Hno].
      rewrite includes_cons in Hyes, Hno. split.
      * intros Hin. destruct (Hyes Hin) as (q & Hq & Hext).
        exists q. split; [exact Hq|]. intros x Hx _. now apply Hext.
      * exact Hno.
Qed.

Lemma scheme_state_question_mark (inp buf s r : jsstring) :
  scheme_state inp buf = Some (s, r) ->
  includes_unit inp QUESTION_MARK = includes_unit r QUESTION_MARK.
Proof.
  revert buf. induction inp as [|c inp IH]; intros buf.
  - discriminate.
  - rewrite includes_cons. cbn [scheme_state].
    destruct (is_ascii_alphanumeric c || (c =? 43) || (c =? HYPHEN_MINUS)
              || (c =? FULL_STOP))%N eqn:E.
    + intros H. rewrite (IH _ H).
      destruct (c =? QUESTION_MARK)%N eqn:Eq; [|reflexivity].
      apply N.eqb_eq in Eq. subst c. discriminate E.
    + destruct (c =? COLON)%N eqn:Ec; [|discriminate].
      intros [= <- <-]. apply N.eqb_eq in Ec. subst c. reflexivity.
Qed.

Lemma scheme_start_state_question_mark (inp s r : jsstring) :
  scheme_start_state inp = Some (s, r) ->
  includes_unit inp QUESTION_MARK = includes_unit r QUESTION_MARK.
Proof.
  destruct inp as [|c inp]; [discriminate|]. cbn [scheme_start_state].
  destruct (is_ascii_alpha c) eqn:E; [|discriminate].
  intros H. rewrite includes_cons, (scheme_state_question_mark _ _ _ _ H).
  destruct (c =? QUESTION_MARK)%N eqn:Eq; [|reflexivity].
  apply N.eqb_eq in Eq. subst c. discriminate E.
Qed.


(** *** The two theorems *)

Lemma suffix_units (url : jsstring) (t : Z) :
  let separator := if includes_unit url QUESTION_MARK then js "&" else js "?" in
  forallb covered_unit (separator ++ js "_=" ++ Z_to_jsstring t) = true
  /\ includes_unit (js "_=" ++ Z_to_jsstring t) NUMBER_SIGN = false
  /\ includes_unit (js "&" ++ js "_=" ++ Z_to_jsstring t) NUMBER_SIGN = false.
Proof.
  destruct (timestamp_units t) as [Hc Hh]. intros separator. repeat split.
  - subst separator. rewrite !forallb_app, Hc.
    destruct (includes_unit url QUESTION_MARK); reflexivity.
  - rewrite includes_app, Hh. reflexivity.
  - rewrite !includes_app, Hh. reflexivity.
Qed.

(** X16. For a seed of covered units that parses to a URL with a
    fragment, the busted request parses to the same URL but for the
    fragment: the timestamp parameter ends up inside the fragment, and
    scheme, host, port, path and query are those of the seed. *)
Theorem busted_seed_with_fragment (url : jsstring) (t : Z) (u : URLRecord) (f : jsstring) :
  forallb covered_unit url = true ->
  basic_URL_parser url None = Parsed u ->
  fragment u = Some f ->
  let separator := if includes_unit url QUESTION_MARK then js "&" else js "?" in
  exists u',
    basic_URL_parser (appendTimestampToUrl url t) None = Parsed u'
    /\ scheme u' = scheme u /\ host u' = host u /\ port u' = port u
    /\ path u' = path u /\ query u' = query u
    /\ fragment u' = Some (f ++ separator ++ js "_=" ++ Z_to_jsstring t).
Proof.
  intros Hcov Hparse Hfrag separator.
  exists (fragment_state (f ++ separator ++ js "_=" ++ Z_to_jsstring t) u).
  split; [|repeat split].
  unfold appendTimestampToUrl. fold separator.
  apply parser_fragment_extension; try assumption.
  apply (suffix_units url t).
Qed.

Lemma busted_seed_with_fragment_witness :
  exists u',
    basic_URL_parser (appendTimestampToUrl (js "https://x.test/p#top") 1700000000000) None
    = Parsed u'
    /\ path u' = [js "p"] /\ query u' = None
    /\ fragment u' = Some (js "top?_=1700000000000").
Proof.
  destruct (busted_seed_with_fragment (js "https://x.test/p#top") 1700000000000
              {| scheme := js "https"; host := js "x.test"; port := None;
                 path := [js "p"]; query := None; fragment := Some (js "top") |}
              (js "top") eq_refl eq_refl eq_refl)
    as (u' & Hparse & _ & _ & _ & Hpath & Hquery & Hfrag).
  exists u'. repeat split; assumption.
Defined.

(** X17. For a seed of covered units that parses to a URL without a
    fragment, the busted request parses to the same scheme, host, port
    and path, still without a fragment, and its query is the seed's
    query followed by ["&_=" + timestamp], or ["_=" + timestamp] when
    the seed had no query. *)
Theorem busted_seed_without_fragment (url : jsstring) (t : Z) (u : URLRecord) :
  forallb covered_unit url = true ->
  basic_URL_parser url None = Parsed u ->
  fragment u = None ->
  exists u',
    basic_URL_parser (appendTimestampToUrl url t) None = Parsed u'
    /\ scheme u' = scheme u /\ host u' = host u /\ port u' = port u
    /\ path u' = path u /\ fragment u' = None
    /\ query u' = Some (match query u with
                        | Some q => q ++ js "&" ++ js "_=" ++ Z_to_jsstring t
                        | None => js "_=" ++ Z_to_jsstring t
                        end).
Proof.
  intros Hcov Hparse Hfrag.
  destruct (suffix_units url t) as (Hsfx & Hplain & Hamp).
  pose proof Hparse as Hparse'.
  rewrite (basic_URL_parser_covered url Hcov) in Hparse'.
  destruct (scheme_start_state url) as [[s r]|] eqn:Es; [|discriminate].
  destruct (default_port s) eqn:Ed; [|discriminate].
  destruct (ignore_slashes_extension s r u Hparse' Hfrag) as [Hyes Hno].
  rewrite <- (scheme_start_state_question_mark _ _ _ Es) in Hyes, Hno.
  assert (Hbusted : forall x,
    forallb covered_unit x = true ->
    basic_URL_parser (url ++ x) None
    = special_authority_ignore_slashes_state s (r ++ x)).
  { intros x Hx. rewrite basic_URL_parser_covered by now rewrite forallb_app, Hcov, Hx.
    now rewrite (scheme_start_state_app _ _ _ x Es), Ed. }
  unfold appendTimestampToUrl.
  destruct (includes_unit url QUESTION_MARK) eqn:Eq.
  - destruct (Hyes eq_refl) as (q & Hq & Hext).
    exists (set_query (Some (q ++ js "&" ++ js "_=" ++ Z_to_jsstring t)) u).
    split; [|rewrite Hq; repeat split; exact Hfrag].
    rewrite (Hbusted _ Hsfx). apply Hext; [exact Hamp | discriminate].
  - destruct (Hno eq_refl) as (Hq & Hext).
    exists (set_query (Some (js "_=" ++ Z_to_jsstring t)) u).
    split; [|rewrite Hq; repeat split; exact Hfrag].
    rewrite (Hbusted _ Hsfx). apply (Hext _ Hplain).
Qed.

Lemma busted_seed_without_fragment_witness :
  exists u',
    basic_URL_parser (appendTimestampToUrl (js "https://x.test/p?q=1") 1700000000000) None
    = Parsed u'
    /\ path u' = [js "p"]
    /\ query u' = Some (js "q=1&_=1700000000000").
Proof.
  destruct (busted_seed_without_fragment (js "https://x.test/p?q=1") 1700000000000
              {| scheme := js "https"; host := js "x.test"; port := None;
                 path := [js "p"]; query := Some (js "q=1"); fragment := None |}
              eq_refl eq_refl eq_refl)
    as (u' & Hparse & _ & _ & _ & Hpath & _ & Hquery).
  exists u'. repeat split; assumption.
Defined.

End CacheBusting.
